(** * RummyScore: the game service of the Rummy score tracker

    A shallow embedding of the class [GameService] (imported by the
    components as services/game.service), of the data model it works on
    (models/game.model: [Player], [Round], [GameState], ...) and of the
    inline score-entry form that feeds it, followed by the properties of
    the round ledger, of elimination and rejoin, of the dealer rotation
    and of the removed-player tombstones.  Each definition bears the name
    of the method, computed signal or interface it comes from.

    Modelling conventions.
    - A JavaScript [number] holding a score or a setting is a [Z]; one
      holding a count, an index, a round number or a column order is a
      [nat] (every write of the service to such a field is a length, an
      index or a successor).
    - [string | null] is [option string]; [undefined] fields are [None].
    - Names are strings of 8-bit characters; [toLowerCase] and [trim] act
      on the ASCII letters and the ASCII white space.
    - The service object is a value of type [GameService]: the [gameState]
      signal and the transient [playersEligibleForRejoin] signal.  Every
      method is a function from the service before the call to the service
      after it (and to the returned value when there is one).  The write to
      localStorage does not influence any later read and is left out.
    - [generateId ()] and [Date.now ()] are inputs of the operations that
      call them. *)

From Stdlib Require Import ZArith String Ascii Bool Arith Lia Permutation Sorted FinFun List.
Import ListNotations.

Local Open Scope string_scope.
Local Open Scope list_scope.
Local Open Scope nat_scope.

(* ===================================================================== *)
(** ** Array and string primitives of the host language *)
(* ===================================================================== *)

Section ArrayPrimitives.
Context {A B : Type}.

(** [Array.prototype.findIndex]; [None] stands for [-1]. *)
Fixpoint findIndex (f : A -> bool) (l : list A) : option nat :=
  match l with
  | [] => None
  | x :: r =>
      if f x then Some 0
      else match findIndex f r with
           | Some i => Some (S i)
           | None => None
           end
  end.

(** [Array.prototype.map] with the callback that also reads the index. *)
Fixpoint mapiFrom (i : nat) (f : nat -> A -> B) (l : list A) : list B :=
  match l with
  | [] => []
  | x :: r => f i x :: mapiFrom (S i) f r
  end.

Definition mapi (f : nat -> A -> B) (l : list A) : list B := mapiFrom 0 f l.

End ArrayPrimitives.

(** [Array.prototype.indexOf] on an array of strings. *)
Definition indexOf (x : string) (l : list string) : option nat :=
  findIndex (String.eqb x) l.

(** [Array.prototype.includes] on an array of strings. *)
Definition includes (x : string) (l : list string) : bool :=
  existsb (String.eqb x) l.

(** [Math.max(0, i)] for the result [i] of a [findIndex]. *)
Definition maxZeroIndex (o : option nat) : nat :=
  match o with
  | Some i => i
  | None => 0
  end.

Definition lowerAscii (c : ascii) : ascii :=
  let n := nat_of_ascii c in
  if (65 <=? n) && (n <=? 90) then ascii_of_nat (n + 32) else c.

Fixpoint toLowerCase (s : string) : string :=
  match s with
  | EmptyString => EmptyString
  | String c r => String (lowerAscii c) (toLowerCase r)
  end.

Definition isSpace (c : ascii) : bool :=
  let n := nat_of_ascii c in
  (n =? 32) || ((9 <=? n) && (n <=? 13)).

Fixpoint trimStart (s : string) : string :=
  match s with
  | EmptyString => EmptyString
  | String c r => if isSpace c then trimStart r else s
  end.

Fixpoint trimEnd (s : string) : string :=
  match s with
  | EmptyString => EmptyString
  | String c r =>
      match trimEnd r with
      | EmptyString => if isSpace c then EmptyString else String c EmptyString
      | r' => String c r'
      end
  end.

Definition trim (s : string) : string := trimEnd (trimStart s).

(* ===================================================================== *)
(** ** Data model (models/game.model.ts) *)
(* ===================================================================== *)

Record Player := mkPlayer {
  id : string;
  name : string;
  isOut : bool;
  columnOrder : nat;
  originalColumnOrder : option nat;
  rejoinCount : nat
}.

Record RoundScore := mkRoundScore {
  playerId : string;
  score : Z
}.

(** The field [id] of a round is [round_id] here. *)
Record Round := mkRound {
  round_id : nat;
  scores : list RoundScore;
  winnerId : option string;
  timestamp : Z
}.

Record GameSettings := mkGameSettings {
  maxPoints : Z;
  dropPoints : Z
}.

(** An entry [{ roundId, score }] of a tombstone. *)
Record SavedScore := mkSavedScore {
  roundId : nat;
  savedScore : Z
}.

(** The field [scores] of a tombstone is [savedScores] here. *)
Record RemovedPlayer := mkRemovedPlayer {
  player : Player;
  savedScores : list SavedScore
}.

Record GameState := mkGameState {
  settings : GameSettings;
  players : list Player;
  rounds : list Round;
  currentOpenCardPlayerIndex : nat;
  isGameStarted : bool;
  isGameOver : bool;
  gameWinnerId : option string;
  removedPlayers : list RemovedPlayer
}.

(** [PlayerWithTotal extends Player]: the player and the derived fields. *)
Record PlayerWithTotal := mkPlayerWithTotal {
  base : Player;
  totalScore : Z;
  canDrop : bool;
  canRejoin : bool
}.

Definition DEFAULT_GAME_STATE : GameState :=
  {| settings := {| maxPoints := 201; dropPoints := 20 |};
     players := [];
     rounds := [];
     currentOpenCardPlayerIndex := 0;
     isGameStarted := false;
     isGameOver := false;
     gameWinnerId := None;
     removedPlayers := [] |}.

(** The service: the state signal and the rejoin-eligibility signal. *)
Record GameService := mkGameService {
  gameState : GameState;
  playersEligibleForRejoin : list string
}.

(** *** Object spreads [{ ...x, field: v }] *)

Definition withIsOut (b : bool) (p : Player) : Player :=
  mkPlayer (id p) (name p) b (columnOrder p) (originalColumnOrder p) (rejoinCount p).

Definition withColumnOrder (c : nat) (p : Player) : Player :=
  mkPlayer (id p) (name p) (isOut p) c (originalColumnOrder p) (rejoinCount p).

Definition withScore (z : Z) (s : RoundScore) : RoundScore :=
  mkRoundScore (playerId s) z.

Definition withScores (l : list RoundScore) (r : Round) : Round :=
  mkRound (round_id r) l (winnerId r) (timestamp r).

Definition withRoundId (n : nat) (r : Round) : Round :=
  mkRound n (scores r) (winnerId r) (timestamp r).

Definition withSettings (s : GameSettings) (st : GameState) : GameState :=
  mkGameState s (players st) (rounds st) (currentOpenCardPlayerIndex st)
    (isGameStarted st) (isGameOver st) (gameWinnerId st) (removedPlayers st).

Definition withPlayers (l : list Player) (st : GameState) : GameState :=
  mkGameState (settings st) l (rounds st) (currentOpenCardPlayerIndex st)
    (isGameStarted st) (isGameOver st) (gameWinnerId st) (removedPlayers st).

Definition withRounds (l : list Round) (st : GameState) : GameState :=
  mkGameState (settings st) (players st) l (currentOpenCardPlayerIndex st)
    (isGameStarted st) (isGameOver st) (gameWinnerId st) (removedPlayers st).

Definition withOpenCardIndex (i : nat) (st : GameState) : GameState :=
  mkGameState (settings st) (players st) (rounds st) i
    (isGameStarted st) (isGameOver st) (gameWinnerId st) (removedPlayers st).

Definition withGameStarted (b : bool) (st : GameState) : GameState :=
  mkGameState (settings st) (players st) (rounds st) (currentOpenCardPlayerIndex st)
    b (isGameOver st) (gameWinnerId st) (removedPlayers st).

Definition withGameOver (b : bool) (st : GameState) : GameState :=
  mkGameState (settings st) (players st) (rounds st) (currentOpenCardPlayerIndex st)
    (isGameStarted st) b (gameWinnerId st) (removedPlayers st).

Definition withGameWinnerId (w : option string) (st : GameState) : GameState :=
  mkGameState (settings st) (players st) (rounds st) (currentOpenCardPlayerIndex st)
    (isGameStarted st) (isGameOver st) w (removedPlayers st).

Definition withRemovedPlayers (l : list RemovedPlayer) (st : GameState) : GameState :=
  mkGameState (settings st) (players st) (rounds st) (currentOpenCardPlayerIndex st)
    (isGameStarted st) (isGameOver st) (gameWinnerId st) l.

Definition withGameState (st : GameState) (gs : GameService) : GameService :=
  mkGameService st (playersEligibleForRejoin gs).

Definition withEligible (l : list string) (gs : GameService) : GameService :=
  mkGameService (gameState gs) l.

(* ===================================================================== *)
(** ** Derived values of the service (computed signals, calculations) *)
(* ===================================================================== *)

(** [.sort((a, b) => a.columnOrder - b.columnOrder)]: the sort of the host
    language is stable, so is this insertion sort. *)
Fixpoint insertByColumnOrder (p : Player) (l : list Player) : list Player :=
  match l with
  | [] => [p]
  | q :: r =>
      if columnOrder p <=? columnOrder q then p :: q :: r
      else q :: insertByColumnOrder p r
  end.

Definition sortByColumnOrder (l : list Player) : list Player :=
  fold_right insertByColumnOrder [] l.

Definition notOut (p : Player) : bool := negb (isOut p).

Definition activePlayers (st : GameState) : list Player :=
  sortByColumnOrder (filter notOut (players st)).

Definition outPlayers (st : GameState) : list Player :=
  filter isOut (players st).

Definition hasPlayerId (pid : string) (s : RoundScore) : bool :=
  (playerId s =? pid)%string.

(** [score?.score || 0] and [...?.score || 0]. *)
Definition scoreOrZero (o : option RoundScore) : Z :=
  match o with
  | Some s => score s
  | None => 0%Z
  end.

Definition calculatePlayerTotal (st : GameState) (pid : string) : Z :=
  fold_left
    (fun total round =>
       (total + scoreOrZero (find (hasPlayerId pid) (scores round)))%Z)
    (rounds st) 0%Z.

(** [excludePlayerId] is optional; [None] is the call without argument. *)
Definition getHighestActiveScore (exclude : option string) (st : GameState) : Z :=
  fold_left
    (fun highest p =>
       let excluded :=
         match exclude with
         | Some e => (id p =? e)%string
         | None => false
         end in
       if negb (isOut p) && negb excluded then
         let total := calculatePlayerTotal st (id p) in
         if (total >? highest)%Z then total else highest
       else highest)
    (players st) 0%Z.

Definition getPlayerScore (rid : nat) (pid : string) (st : GameState) : option Z :=
  match find (fun r => round_id r =? rid) (rounds st) with
  | None => None
  | Some round => option_map score (find (hasPlayerId pid) (scores round))
  end.

Definition getMostRecentRoundId (st : GameState) : option nat :=
  option_map round_id (nth_error (rounds st) (length (rounds st) - 1)).

Definition wouldCreateMultipleWinners
    (rid : nat) (pid : string) (newScore : Z) (st : GameState) : bool :=
  match find (fun r => round_id r =? rid) (rounds st) with
  | None => false
  | Some round =>
      let zeroCount :=
        fold_left
          (fun count s =>
             if (playerId s =? pid)%string then
               (if (newScore =? 0)%Z then S count else count)
             else if (score s =? 0)%Z then S count else count)
          (scores round) 0 in
      1 <? zeroCount
  end.

Definition playerWithTotal (gs : GameService) (p : Player) : PlayerWithTotal :=
  let state := gameState gs in
  let eligibleForRejoin := playersEligibleForRejoin gs in
  let activeCount := length (filter notOut (players state)) in
  let total := calculatePlayerTotal state (id p) in
  let highestActive := getHighestActiveScore None state in
  let rejoinTotal := (highestActive + 1)%Z in
  {| base := p;
     totalScore := total;
     canDrop := (total + dropPoints (settings state) <=? maxPoints (settings state))%Z;
     canRejoin :=
       isOut p
       && includes (id p) eligibleForRejoin
       && (rejoinTotal + dropPoints (settings state) <=? maxPoints (settings state))%Z
       && (2 <=? activeCount) |}.

Definition playersWithTotals (gs : GameService) : list PlayerWithTotal :=
  map (playerWithTotal gs) (players (gameState gs)).

(** The dealer: none below two active players and none when no active
    player sits at the rotation index. *)
Definition currentDealer (st : GameState) : option Player :=
  let active := activePlayers st in
  if length active <? 2 then None
  else
    let openCardIndex := currentOpenCardPlayerIndex st in
    match nth_error active openCardIndex with
    | None => None
    | Some _ =>
        let dealerIndex :=
          if openCardIndex =? 0 then length active - 1 else openCardIndex - 1 in
        nth_error active dealerIndex
    end.

(** [active[index] || active[0]]. *)
Definition currentOpenCardPlayer (st : GameState) : option Player :=
  let active := activePlayers st in
  match active with
  | [] => None
  | first :: _ =>
      match nth_error active (currentOpenCardPlayerIndex st) with
      | Some p => Some p
      | None => Some first
      end
  end.

Definition isPlayerNameTaken (nm : string) (st : GameState) : bool :=
  let normalizedName := toLowerCase (trim nm) in
  existsb (fun p => (toLowerCase (name p) =? normalizedName)%string) (players st).

Definition findRemovedPlayer (nm : string) (st : GameState) : option RemovedPlayer :=
  let normalizedName := toLowerCase (trim nm) in
  find (fun rp => (toLowerCase (name (player rp)) =? normalizedName)%string)
       (removedPlayers st).

Definition needsSetup (st : GameState) : bool := negb (isGameStarted st).

(* ===================================================================== *)
(** ** Game-over check and rotation *)
(* ===================================================================== *)

Definition checkGameOver (st : GameState) : GameState :=
  match activePlayers st with
  | [winner] => withGameWinnerId (Some (id winner)) (withGameOver true st)
  | [] => withGameOver true st
  | _ => st
  end.

Definition advanceOpenCard (st : GameState) : GameState :=
  let active := activePlayers st in
  if length active <? 2 then st
  else
    let currentIndex := currentOpenCardPlayerIndex st in
    withOpenCardIndex ((currentIndex + 1) mod length active) st.

Definition setOpenCardPlayer (pid : string) (st : GameState) : GameState :=
  match findIndex (fun p => (id p =? pid)%string) (activePlayers st) with
  | Some index => withOpenCardIndex index st
  | None => st
  end.

Definition setDealer (pid : string) (st : GameState) : GameState :=
  let active := activePlayers st in
  match findIndex (fun p => (id p =? pid)%string) active with
  | Some dealerIndex => withOpenCardIndex ((dealerIndex + 1) mod length active) st
  | None => st
  end.

(* ===================================================================== *)
(** ** Elimination *)
(* ===================================================================== *)

(** The test of [checkPlayersOut] on one player: not yet out and over the
    ceiling. *)
Definition goesOut (st : GameState) (p : Player) : bool :=
  negb (isOut p) && (calculatePlayerTotal st (id p) >? maxPoints (settings st))%Z.

Definition markOut (p : Player) : Player :=
  mkPlayer (id p) (name p) true (columnOrder p) (Some (columnOrder p)) (rejoinCount p).

(** Returns the ids pushed to [playersWhoWentOut] and the next state. *)
Definition checkPlayersOut (st : GameState) : list string * GameState :=
  let playersWhoWentOut := map id (filter (goesOut st) (players st)) in
  let updatedPlayers :=
    map (fun p => if isOut p then p
                  else if (calculatePlayerTotal st (id p) >? maxPoints (settings st))%Z
                       then markOut p else p)
        (players st) in
  match playersWhoWentOut with
  | [] => (playersWhoWentOut, st)
  | _ :: _ => (playersWhoWentOut, checkGameOver (withPlayers updatedPlayers st))
  end.

(** [let order = 0; l.forEach(p => { if (!p.isOut) p.columnOrder = order++ })] *)
Fixpoint compactFrom (order : nat) (l : list Player) : list Player :=
  match l with
  | [] => []
  | p :: r =>
      if isOut p then p :: compactFrom order r
      else withColumnOrder order p :: compactFrom (S order) r
  end.

Definition shouldBeOut (st : GameState) (p : Player) : bool :=
  (calculatePlayerTotal st (id p) >? maxPoints (settings st))%Z.

Definition recalculatePlayerStatuses (st : GameState) : GameState :=
  let hasChanges :=
    existsb (fun p => negb (Bool.eqb (isOut p) (shouldBeOut st p))) (players st) in
  let updatedPlayers :=
    map (fun p => if Bool.eqb (isOut p) (shouldBeOut st p) then p
                  else withIsOut (shouldBeOut st p) p)
        (players st) in
  if hasChanges then checkGameOver (withPlayers (compactFrom 0 updatedPlayers) st)
  else st.

(* ===================================================================== *)
(** ** Operations of the service *)
(* ===================================================================== *)

Definition initializeGame (maxPts dropPts : Z) (gs : GameService) : GameService :=
  withGameState
    (withGameStarted true
       (withSettings {| maxPoints := maxPts; dropPoints := dropPts |} (gameState gs)))
    gs.

Definition updateSettings (s : GameSettings) (gs : GameService) : GameService :=
  withGameState (withSettings s (gameState gs)) gs.

(** The restored score of one round: the first saved score that carries
    the round's number is appended to the round. *)
Definition restoreScore (removedPlayer : RemovedPlayer) (pid : string) (round : Round)
  : Round :=
  match find (fun s => roundId s =? round_id round) (savedScores removedPlayer) with
  | Some saved =>
      withScores (scores round ++ [mkRoundScore pid (savedScore saved)]) round
  | None => round
  end.

Definition sameLowerName (a b : string) : bool :=
  (toLowerCase a =? toLowerCase b)%string.

(** [addPlayer name]; [fresh] is the value [generateId ()] returns when it
    is called.  The result is the returned boolean and the next service. *)
Definition addPlayer (nm fresh : string) (gs : GameService) : bool * GameService :=
  let state := gameState gs in
  let trimmedName := trim nm in
  if isPlayerNameTaken trimmedName state then (false, gs)
  else
    match findRemovedPlayer trimmedName state with
    | Some removedPlayer =>
        let old := player removedPlayer in
        let restoredPlayer :=
          mkPlayer (id old) (name old) false
                   (length (filter notOut (players state)))
                   (originalColumnOrder old) (rejoinCount old) in
        let updatedRounds :=
          map (restoreScore removedPlayer (id restoredPlayer)) (rounds state) in
        let updatedRemovedPlayers :=
          filter (fun rp => negb (sameLowerName (name (player rp)) trimmedName))
                 (removedPlayers state) in
        (true,
         withGameState
           (withRemovedPlayers updatedRemovedPlayers
              (withRounds updatedRounds
                 (withPlayers (players state ++ [restoredPlayer]) state)))
           gs)
    | None =>
        let newPlayer :=
          mkPlayer fresh trimmedName false
                   (length (filter notOut (players state))) None 0 in
        (true, withGameState (withPlayers (players state ++ [newPlayer]) state) gs)
    end.

Definition addJoinScoreForNewPlayer (playerName : string) (joinScore : Z)
    (gs : GameService) : GameService :=
  let state := gameState gs in
  match find (fun p => (name p =? playerName)%string && negb (isOut p)) (players state) with
  | None => gs
  | Some joined =>
      if length (rounds state) =? 0 then gs
      else
        let updatedRounds :=
          mapi (fun index round =>
                  if index =? length (rounds state) - 1
                  then withScores (scores round ++ [mkRoundScore (id joined) joinScore]) round
                  else round)
               (rounds state) in
        let activeAfterJoin := sortByColumnOrder (filter notOut (players state)) in
        let newOpenCardIndex :=
          findIndex (fun p => (id p =? id joined)%string) activeAfterJoin in
        withGameState
          (withOpenCardIndex (maxZeroIndex newOpenCardIndex)
             (withRounds updatedRounds state))
          gs
  end.

(** The player that rejoins: active again at the saved seat, one more
    rejoin counted. *)
Definition reinstate (originalOrder : nat) (p : Player) : Player :=
  mkPlayer (id p) (name p) false originalOrder None (rejoinCount p + 1).

Definition rejoinPlayer (pid : string) (gs : GameService) : GameService :=
  let state := gameState gs in
  match find (fun p => (id p =? pid)%string) (players state) with
  | None => gs
  | Some rejoining =>
      if negb (isOut rejoining) || negb (includes pid (playersEligibleForRejoin gs))
      then gs
      else
        let currentTotal := calculatePlayerTotal state pid in
        let highestActive := getHighestActiveScore None state in
        let targetTotal := (highestActive + 1)%Z in
        let lastRound := nth_error (rounds state) (length (rounds state) - 1) in
        let lastRoundScore :=
          match lastRound with
          | Some r => scoreOrZero (find (hasPlayerId pid) (scores r))
          | None => 0%Z
          end in
        let newLastRoundScore := (targetTotal - currentTotal + lastRoundScore)%Z in
        let originalOrder :=
          match originalColumnOrder rejoining with
          | Some o => o
          | None => columnOrder rejoining
          end in
        let updatedPlayers :=
          map (fun p =>
                 if (id p =? pid)%string then reinstate originalOrder p
                 else if negb (isOut p) && (originalOrder <=? columnOrder p)
                      then withColumnOrder (columnOrder p + 1) p
                      else p)
              (players state) in
        let updatedRounds :=
          mapi (fun index round =>
                  if index =? length (rounds state) - 1
                  then withScores
                         (map (fun s => if (playerId s =? pid)%string
                                        then withScore newLastRoundScore s else s)
                              (scores round))
                         round
                  else round)
               (rounds state) in
        let activeAfterRejoin := sortByColumnOrder (filter notOut updatedPlayers) in
        let newOpenCardIndex :=
          findIndex (fun p => (id p =? pid)%string) activeAfterRejoin in
        mkGameService
          (withGameWinnerId None
             (withGameOver false
                (withOpenCardIndex (maxZeroIndex newOpenCardIndex)
                   (withRounds updatedRounds (withPlayers updatedPlayers state)))))
          (filter (fun i => negb (i =? pid)%string) (playersEligibleForRejoin gs))
  end.

(** The scores a tombstone keeps: for each round with an entry of the
    player, the round's number and the score of the first such entry. *)
Definition extractScores (pid : string) (rs : list Round) : list SavedScore :=
  flat_map
    (fun round =>
       match find (hasPlayerId pid) (scores round) with
       | Some s => [mkSavedScore (round_id round) (score s)]
       | None => []
       end)
    rs.

Definition stripPlayer (pid : string) (round : Round) : Round :=
  withScores (filter (fun s => negb (playerId s =? pid)%string) (scores round)) round.

Definition removePlayer (pid : string) (gs : GameService) : GameService :=
  let state := gameState gs in
  match find (fun p => (id p =? pid)%string) (players state) with
  | None => gs
  | Some playerToRemove =>
      let removedPlayerRecord :=
        mkRemovedPlayer playerToRemove (extractScores pid (rounds state)) in
      let updatedRemovedPlayers :=
        filter (fun rp => negb (sameLowerName (name (player rp)) (name playerToRemove)))
               (removedPlayers state)
        ++ [removedPlayerRecord] in
      let updatedPlayers :=
        compactFrom 0 (filter (fun p => negb (id p =? pid)%string) (players state)) in
      let updatedRounds := map (stripPlayer pid) (rounds state) in
      mkGameService
        (checkGameOver
           (withRemovedPlayers updatedRemovedPlayers
              (withRounds updatedRounds (withPlayers updatedPlayers state))))
        (filter (fun i => negb (i =? pid)%string) (playersEligibleForRejoin gs))
  end.

Definition reorderPlayers (playerIds : list string) (gs : GameService) : GameService :=
  let state := gameState gs in
  let updatedPlayers :=
    map (fun p =>
           match indexOf (id p) playerIds with
           | Some newOrder => withColumnOrder newOrder p
           | None => p
           end)
        (players state) in
  withGameState (withPlayers updatedPlayers state) gs.

(** [scores.find(s => s.score === 0)?.playerId || null]: the empty string
    is falsy. *)
Definition winnerOf (l : list RoundScore) : option string :=
  match find (fun s => (score s =? 0)%Z) l with
  | Some s => if (playerId s =? "")%string then None else Some (playerId s)
  | None => None
  end.

(** [addRound scores]; [now] is the value of [Date.now ()].  The
    rejoin-eligible list is emptied first and set to the players that
    went out when there are some. *)
Definition addRound (submitted : list RoundScore) (now : Z) (gs : GameService)
  : GameService :=
  let state := gameState gs in
  let cleared := withEligible [] gs in
  let newRound :=
    {| round_id := length (rounds state) + 1;
       scores := submitted;
       winnerId := winnerOf submitted;
       timestamp := now |} in
  let appended := withRounds (rounds state ++ [newRound]) state in
  let (playersWhoWentOut, checked) := checkPlayersOut appended in
  let eligible :=
    if 0 <? length playersWhoWentOut then playersWhoWentOut
    else playersEligibleForRejoin cleared in
  mkGameService (advanceOpenCard checked) eligible.

Definition editRound (rid : nat) (pid : string) (newScore : Z) (round : Round) : Round :=
  if round_id round =? rid then
    let updatedScores :=
      map (fun s => if (playerId s =? pid)%string then withScore newScore s else s)
          (scores round) in
    mkRound (round_id round) updatedScores (winnerOf updatedScores) (timestamp round)
  else round.

Definition updateScore (rid : nat) (pid : string) (newScore : Z) (gs : GameService)
  : GameService :=
  let state := gameState gs in
  let updatedRounds := map (editRound rid pid newScore) (rounds state) in
  withGameState (snd (checkPlayersOut (withRounds updatedRounds state))) gs.

Definition deleteRound (rid : nat) (gs : GameService) : GameService :=
  let state := gameState gs in
  let filteredRounds := filter (fun r => negb (round_id r =? rid)) (rounds state) in
  let updatedRounds := mapi (fun index round => withRoundId (index + 1) round) filteredRounds in
  mkGameService (recalculatePlayerStatuses (withRounds updatedRounds state)) [].

Definition newGame (gs : GameService) : GameService :=
  let state := gameState gs in
  let resetPlayers :=
    mapi (fun order p => withColumnOrder order (withIsOut false p)) (players state) in
  mkGameService
    (withGameWinnerId None
       (withGameOver false
          (withOpenCardIndex 0 (withRounds [] (withPlayers resetPlayers state)))))
    [].

Definition resetEverything (gs : GameService) : GameService :=
  mkGameService DEFAULT_GAME_STATE [].

(** The service as it is created when nothing is stored. *)
Definition initialService : GameService := mkGameService DEFAULT_GAME_STATE [].

(* ===================================================================== *)
(** ** The inline score-entry form and the handler of its event *)
(* ===================================================================== *)








(* ===================================================================== *)
(** ** Runs of the service *)
(* ===================================================================== *)

Inductive Op : Type :=
| OpInitializeGame (maxPts dropPts : Z)
| OpUpdateSettings (s : GameSettings)
| OpAddPlayer (nm fresh : string)
| OpAddJoinScore (playerName : string) (joinScore : Z)
| OpRejoinPlayer (pid : string)
| OpRemovePlayer (pid : string)
| OpReorderPlayers (playerIds : list string)
| OpAddRound (submitted : list RoundScore) (now : Z)
| OpUpdateScore (rid : nat) (pid : string) (newScore : Z)
| OpDeleteRound (rid : nat)
| OpAdvanceOpenCard
| OpSetOpenCardPlayer (pid : string)
| OpSetDealer (pid : string)
| OpNewGame
| OpResetEverything.

Definition perform (o : Op) (gs : GameService) : GameService :=
  match o with
  | OpInitializeGame m d => initializeGame m d gs
  | OpUpdateSettings s => updateSettings s gs
  | OpAddPlayer nm fresh => snd (addPlayer nm fresh gs)
  | OpAddJoinScore nm z => addJoinScoreForNewPlayer nm z gs
  | OpRejoinPlayer pid => rejoinPlayer pid gs
  | OpRemovePlayer pid => removePlayer pid gs
  | OpReorderPlayers l => reorderPlayers l gs
  | OpAddRound l now => addRound l now gs
  | OpUpdateScore rid pid z => updateScore rid pid z gs
  | OpDeleteRound rid => deleteRound rid gs
  | OpAdvanceOpenCard => withGameState (advanceOpenCard (gameState gs)) gs
  | OpSetOpenCardPlayer pid => withGameState (setOpenCardPlayer pid (gameState gs)) gs
  | OpSetDealer pid => withGameState (setDealer pid (gameState gs)) gs
  | OpNewGame => newGame gs
  | OpResetEverything => resetEverything gs
  end.

Definition run (ops : list Op) (gs : GameService) : GameService :=
  fold_left (fun s o => perform o s) ops gs.

(** A state is reachable when a run from the initial service ends in it. *)
Definition reachable (gs : GameService) : Prop :=
  exists ops, gs = run ops initialService.


(* ===================================================================== *)
(** ** Notions used by the statements *)
(* ===================================================================== *)

(** The player's score in one round: that of the player's entry, the first
    one when the round holds several, and 0 when it holds none. *)
Definition scoreInRound (pid : string) (r : Round) : Z :=
  scoreOrZero (find (hasPlayerId pid) (scores r)).

(** [totalFor] as the specification words it: the sum of the player's
    score over the rounds, a round without the player counting for 0. *)
Fixpoint totalFor (rs : list Round) (pid : string) : Z :=
  match rs with
  | [] => 0%Z
  | r :: rest => (scoreInRound pid r + totalFor rest pid)%Z
  end.

(** The sum of every entry of the player, round after round. *)
Definition sumOfEntries (rs : list Round) (pid : string) : Z :=
  fold_right Z.add 0%Z
    (map score (flat_map (fun r => filter (hasPlayerId pid) (scores r)) rs)).



(** When no round holds two entries of one player, the score of the player
    in a round is the sum of the player's entries there. *)
Definition oneEntryPerPlayer (r : Round) : Prop := NoDup (map playerId (scores r)).

(** The number of zero scores in a submitted list. *)
Definition zeroCount (l : list RoundScore) : nat :=
  length (filter (fun s => (score s =? 0)%Z) l).

(* ===================================================================== *)
(** ** Sample games *)
(* ===================================================================== *)

(** Three players seated in the order Alice, Bob, Carol, ceiling 101 and
    drop penalty 20. *)
Definition threePlayers : GameService :=
  run [OpInitializeGame 101 20;
       OpAddPlayer "Alice" "a"; OpAddPlayer "Bob" "b"; OpAddPlayer "Carol" "c"]
      initialService.

(** The first round of the three: Alice wins, Bob scores 40 and Carol 110,
    which puts Carol out. *)
Definition carolOut : GameService :=
  addRound [mkRoundScore "a" 0; mkRoundScore "b" 40; mkRoundScore "c" 110] 1
           threePlayers.

(** Alice and Bob alone; after two rounds Bob holds 110 points against a
    ceiling of 101: he is out and the game is over, won by Alice. *)
Definition bobOut : GameService :=
  run [OpInitializeGame 101 20;
       OpAddPlayer "Alice" "a"; OpAddPlayer "Bob" "b";
       OpAddRound [mkRoundScore "a" 0; mkRoundScore "b" 50] 1;
       OpAddRound [mkRoundScore "a" 0; mkRoundScore "b" 60] 2]
      initialService.


(** Carol holds the open card and is removed from the game. *)
Definition carolRemoved : GameService :=
  run [OpSetOpenCardPlayer "c"; OpRemovePlayer "c"] threePlayers.

(** The entry of the last round rewritten by [rejoinPlayer]. *)
Definition adjustEntry (pid : string) (newScore : Z) (s : RoundScore) : RoundScore :=
  if (playerId s =? pid)%string then withScore newScore s else s.

(** Four players seated in the order Alice, Bob, Carol, Dave. *)
Definition fourSeated : GameService :=
  run [OpInitializeGame 101 20;
       OpAddPlayer "Alice" "a"; OpAddPlayer "Bob" "b";
       OpAddPlayer "Carol" "c"; OpAddPlayer "Dave" "d"]
      initialService.

(** The four with the open card at Carol. *)
Definition fourPlayers : GameService :=
  run [OpSetOpenCardPlayer "c"] fourSeated.

(** The four with the open card at Dave, who is then removed. *)
Definition daveRemoved : GameService :=
  run [OpSetOpenCardPlayer "d"; OpRemovePlayer "d"] fourSeated.

(** The seat before seat [i] among [n] seats, going round from the first
    seat to the last. *)
Definition seatBefore (n i : nat) : nat := if i =? 0 then n - 1 else i - 1.

Definition byColumnOrder (p q : Player) : Prop := columnOrder p <= columnOrder q.

(** The players a submission puts out: active before it and over the
    ceiling once it is recorded. *)
Definition eliminatedBy (before after : GameState) : list Player :=
  filter (fun p => negb (isOut p) && shouldBeOut after p) (players before).

(** The column orders of the players that are not out, and what it means
    for them to be the numbers 0..N-1, each once. *)
Definition activeColumns (st : GameState) : list nat :=
  map columnOrder (filter notOut (players st)).

Definition denseActive (st : GameState) : Prop :=
  Permutation (activeColumns st) (seq 0 (length (activeColumns st))).

(** The seat of an active player once another player is put back at
    seat [o]. *)
Definition shiftFrom (o c : nat) : nat := if o <=? c then c + 1 else c.

(** Bob, seated between Alice and Carol, is put out by the first round. *)
Definition bobOutOfThree : GameService :=
  addRound [mkRoundScore "a" 0; mkRoundScore "b" 110; mkRoundScore "c" 10] 1
           threePlayers.


(** The ledger [current] still holds the rounds of [recorded], at the
    front and under the same numbers, possibly followed by newer rounds;
    round numbers are distinct and no round holds an entry of [pid]. *)
Definition ledgerKept (pid : string) (recorded current : list Round) : Prop :=
  exists older newer,
    current = older ++ newer
    /\ Forall2 (fun r r2 => round_id r2 = round_id r) recorded older
    /\ NoDup (map round_id current)
    /\ Forall (fun r2 => find (hasPlayerId pid) (scores r2) = None) current.

(** The player a tombstone gives back, seated after [activeCount] active
    players. *)
Definition restoredFrom (removedPlayer : RemovedPlayer) (activeCount : nat) : Player :=
  mkPlayer (id (player removedPlayer)) (name (player removedPlayer)) false activeCount
           (originalColumnOrder (player removedPlayer))
           (rejoinCount (player removedPlayer)).

(** Two rounds of the three players: Alice scores 10 then 1. *)
Definition twoRounds : GameService :=
  run [OpAddRound [mkRoundScore "a" 10; mkRoundScore "b" 20; mkRoundScore "c" 0] 1;
       OpAddRound [mkRoundScore "a" 1; mkRoundScore "b" 2; mkRoundScore "c" 0] 2]
      threePlayers.


(** Alice is removed and a third round is played without her. *)
Definition aliceAway : GameService :=
  run [OpRemovePlayer "a";
       OpAddRound [mkRoundScore "b" 0; mkRoundScore "c" 7] 3]
      twoRounds.

(** Carol, out with 110 points, is removed from the game. *)
Definition carolOutRemoved : GameService := removePlayer "c" carolOut.

(* ===================================================================== *)
(** ** Callers in the components *)
(* ===================================================================== *)

(** [PlayerPanelComponent.getJoinScore]. *)
Definition getJoinScore (gs : GameService) : Z :=
  let highest := getHighestActiveScore None (gameState gs) in
  if (highest >? 0)%Z then (highest + 1)%Z else 0%Z.

(** [getRejoinScore], of the panel and of the application component. *)
Definition getRejoinScore (gs : GameService) : Z :=
  (getHighestActiveScore None (gameState gs) + 1)%Z.

(** The fields of the player panel that its [addPlayer] reads and
    writes. *)
Record PlayerPanel := mkPlayerPanel {
  newPlayerName : string;
  duplicateNameError : string
}.

Definition doubleQuote : string := String (ascii_of_nat 34) EmptyString.

(** [PlayerPanelComponent.addPlayer]; [fresh] is the value of
    [generateId ()] should the service call it. *)
Definition panelAddPlayer (fresh : string) (panel : PlayerPanel) (gs : GameService)
  : PlayerPanel * GameService :=
  let nm := trim (newPlayerName panel) in
  if (nm =? "")%string then (panel, gs)
  else
    let cleared := mkPlayerPanel (newPlayerName panel) "" in
    if isPlayerNameTaken nm (gameState gs) then
      (mkPlayerPanel (newPlayerName panel)
                     (doubleQuote ++ nm ++ doubleQuote ++ " already exists!")%string,
       gs)
    else
      let (added, gs1) := addPlayer nm fresh gs in
      if added then
        let gs2 :=
          if 0 <? length (rounds (gameState gs1)) then
            let joinScore := getJoinScore gs1 in
            if (joinScore >? 0)%Z then addJoinScoreForNewPlayer nm joinScore gs1
            else gs1
          else gs1 in
        (mkPlayerPanel "" (duplicateNameError cleared), gs2)
      else (cleared, gs1).

(** [AppComponent.getGameWinner]: the name of the winner. *)
Definition getGameWinner (gs : GameService) : option string :=
  match gameWinnerId (gameState gs) with
  | None => None
  | Some winner =>
      if (winner =? "")%string then None
      else option_map name
             (find (fun p => (id p =? winner)%string) (players (gameState gs)))
  end.

(** The players that [AppComponent.checkForRejoinEligiblePlayers] puts in
    the rejoin popup. *)
Definition rejoinCandidates (gs : GameService) : list PlayerWithTotal :=
  filter canRejoin (playersWithTotals gs).

(* ===================================================================== *)
(** ** Further notions used by the statements *)
(* ===================================================================== *)

(** Round numbers run from 1 to the number of rounds. *)
Definition numberedFromOne (rs : list Round) : Prop :=
  map round_id rs = seq 1 (length rs).

Definition lowerName (p : Player) : string := toLowerCase (name p).

(** The names in use: those of the players and those under which a
    tombstone is kept, in lower case. *)
Definition namesInUse (st : GameState) : list string :=
  map lowerName (players st) ++ map (fun rp => lowerName (player rp)) (removedPlayers st).

(** The ids in use: those of the players and those kept in tombstones. *)
Definition idsInUse (st : GameState) : list string :=
  map id (players st) ++ map (fun rp => id (player rp)) (removedPlayers st).

(** The operation does not bring in an id that is in use. *)
Definition bringsFreshId (o : Op) (st : GameState) : Prop :=
  match o with
  | OpAddPlayer _ fresh => ~ In fresh (idsInUse st)
  | _ => True
  end.

(** [n] calls of [advanceOpenCard]. *)
Fixpoint advanceTimes (n : nat) (st : GameState) : GameState :=
  match n with
  | 0 => st
  | S k => advanceTimes k (advanceOpenCard st)
  end.

(** The operations that may clear the game-over flag. *)
Definition mayReopenGame (o : Op) : bool :=
  match o with
  | OpRejoinPlayer _ | OpNewGame | OpResetEverything => true
  | _ => false
  end.

(** What identifies a player: the id and the name. *)
Definition identity (p : Player) : string * string := (id p, name p).

(** The operations that change who is in the game. *)
Definition changesRoster (o : Op) : bool :=
  match o with
  | OpAddPlayer _ _ | OpRemovePlayer _ | OpResetEverything => true
  | _ => false
  end.

(** Along the run, no [addPlayer] is handed an id that is in use. *)
Fixpoint idsStayFresh (ops : list Op) (gs : GameService) : Prop :=
  match ops with
  | [] => True
  | o :: rest => bringsFreshId o (gameState gs) /\ idsStayFresh rest (perform o gs)
  end.

(** The seat at which [rejoinPlayer] puts a player back. *)
Definition seatToRejoin (p : Player) : nat :=
  match originalColumnOrder p with
  | Some o => o
  | None => columnOrder p
  end.

(** Alice and Bob after one round (Alice 0, Bob 50); the panel holds the
    name of a third player. *)
Definition oneRoundPlayed : GameService :=
  run [OpInitializeGame 101 20; OpAddPlayer "Alice" "a"; OpAddPlayer "Bob" "b";
       OpAddRound [mkRoundScore "a" 0; mkRoundScore "b" 50] 1]
      initialService.

Definition panelWithErin : PlayerPanel := mkPlayerPanel " Erin " "".
(* ===================================================================== *)
(** ** What each step leaves alone *)
(* ===================================================================== *)

Lemma checkGameOver_rounds st : rounds (checkGameOver st) = rounds st.
Proof.
  unfold checkGameOver.
  destruct (activePlayers st) as [|w [|w' r]]; reflexivity.
Qed.

Lemma checkGameOver_players st : players (checkGameOver st) = players st.
Proof.
  unfold checkGameOver.
  destruct (activePlayers st) as [|w [|w' r]]; reflexivity.
Qed.

Lemma checkGameOver_settings st : settings (checkGameOver st) = settings st.
Proof.
  unfold checkGameOver.
  destruct (activePlayers st) as [|w [|w' r]]; reflexivity.
Qed.

Lemma checkGameOver_removedPlayers st :
  removedPlayers (checkGameOver st) = removedPlayers st.
Proof.
  unfold checkGameOver.
  destruct (activePlayers st) as [|w [|w' r]]; reflexivity.
Qed.

Lemma checkGameOver_index st :
  currentOpenCardPlayerIndex (checkGameOver st) = currentOpenCardPlayerIndex st.
Proof.
  unfold checkGameOver.
  destruct (activePlayers st) as [|w [|w' r]]; reflexivity.
Qed.

Lemma advanceOpenCard_rounds st : rounds (advanceOpenCard st) = rounds st.
Proof.
  unfold advanceOpenCard.
  destruct (length (activePlayers st) <? 2); reflexivity.
Qed.

Lemma advanceOpenCard_players st : players (advanceOpenCard st) = players st.
Proof.
  unfold advanceOpenCard.
  destruct (length (activePlayers st) <? 2); reflexivity.
Qed.

Lemma advanceOpenCard_settings st : settings (advanceOpenCard st) = settings st.
Proof.
  unfold advanceOpenCard.
  destruct (length (activePlayers st) <? 2); reflexivity.
Qed.

Lemma advanceOpenCard_gameOver st : isGameOver (advanceOpenCard st) = isGameOver st.
Proof.
  unfold advanceOpenCard.
  destruct (length (activePlayers st) <? 2); reflexivity.
Qed.

Lemma checkPlayersOut_rounds st : rounds (snd (checkPlayersOut st)) = rounds st.
Proof.
  unfold checkPlayersOut.
  destruct (map id (filter (goesOut st) (players st))); simpl.
  - reflexivity.
  - now rewrite checkGameOver_rounds.
Qed.

Lemma checkPlayersOut_settings st : settings (snd (checkPlayersOut st)) = settings st.
Proof.
  unfold checkPlayersOut.
  destruct (map id (filter (goesOut st) (players st))); simpl.
  - reflexivity.
  - now rewrite checkGameOver_settings.
Qed.

Lemma checkPlayersOut_ids st :
  fst (checkPlayersOut st) = map id (filter (goesOut st) (players st)).
Proof.
  unfold checkPlayersOut.
  destruct (map id (filter (goesOut st) (players st))); reflexivity.
Qed.

(** The total depends on the rounds only. *)
Lemma calculatePlayerTotal_rounds st st' pid :
  rounds st = rounds st' ->
  calculatePlayerTotal st pid = calculatePlayerTotal st' pid.
Proof.
  unfold calculatePlayerTotal. now intros ->.
Qed.

Lemma addRound_rounds submitted now gs :
  rounds (gameState (addRound submitted now gs))
  = rounds (gameState gs)
    ++ [mkRound (length (rounds (gameState gs)) + 1) submitted
                (winnerOf submitted) now].
Proof.
  unfold addRound.
  match goal with
  | |- context [checkPlayersOut ?s] =>
      pose proof (checkPlayersOut_rounds s) as Hr;
      destruct (checkPlayersOut s) as [out checked]
  end.
  simpl in *. now rewrite advanceOpenCard_rounds, Hr.
Qed.

(* ===================================================================== *)
(** ** The running total and the round ledger *)
(* ===================================================================== *)


Lemma fold_total_shift pid rs acc :
  fold_left
    (fun total round =>
       (total + scoreOrZero (find (hasPlayerId pid) (scores round)))%Z) rs acc
  = (acc + totalFor rs pid)%Z.
Proof.
  revert acc. induction rs as [|r rs IH]; intros acc; simpl.
  - lia.
  - rewrite IH. unfold scoreInRound. lia.
Qed.

Lemma calculatePlayerTotal_totalFor st pid :
  calculatePlayerTotal st pid = totalFor (rounds st) pid.
Proof.
  unfold calculatePlayerTotal. rewrite fold_total_shift. lia.
Qed.

Lemma totalFor_app rs rs' pid :
  totalFor (rs ++ rs') pid = (totalFor rs pid + totalFor rs' pid)%Z.
Proof.
  induction rs as [|r rs IH]; simpl; [reflexivity | rewrite IH; lia].
Qed.





Lemma filter_after_first pid (l : list RoundScore) :
  NoDup (map playerId l) ->
  fold_right Z.add 0%Z (map score (filter (hasPlayerId pid) l))
  = scoreOrZero (find (hasPlayerId pid) l).
Proof.
  induction l as [|s l IH]; simpl; intros Hnd; [reflexivity|].
  inversion Hnd as [|? ? Hnot Hnd']; subst.
  destruct (hasPlayerId pid s) eqn:Hs; simpl.
  - assert (Hnone : filter (hasPlayerId pid) l = []).
    { clear IH Hnd Hnd'. induction l as [|t l IHl]; simpl; [reflexivity|].
      destruct (hasPlayerId pid t) eqn:Ht.
      - exfalso. apply Hnot. left.
        unfold hasPlayerId in *. apply String.eqb_eq in Hs, Ht. congruence.
      - apply IHl. intros Hin. apply Hnot. now right. }
    rewrite Hnone. simpl. lia.
  - now apply IH.
Qed.

Lemma totalFor_sumOfEntries rs pid :
  Forall oneEntryPerPlayer rs -> totalFor rs pid = sumOfEntries rs pid.
Proof.
  unfold sumOfEntries.
  induction 1 as [|r rs Hr Hrs IH]; simpl; [reflexivity|].
  rewrite map_app, fold_right_app, IH.
  unfold scoreInRound. rewrite <- (filter_after_first pid (scores r) Hr).
  generalize (map score (filter (hasPlayerId pid) (scores r))) as l.
  generalize (fold_right Z.add 0%Z
    (map score (flat_map (fun r0 => filter (hasPlayerId pid) (scores r0)) rs))) as z.
  intros z l. induction l as [|x l IHl]; simpl; lia.
Qed.

(* ===================================================================== *)
(** ** Committing a round *)
(* ===================================================================== *)





(* ===================================================================== *)
(** ** Editing a score *)
(* ===================================================================== *)

Lemma filter_nil_false {A} (f : A -> bool) l :
  filter f l = [] -> forall x, In x l -> f x = false.
Proof.
  induction l as [|y l IH]; simpl; intros Hf x Hin; [contradiction|].
  destruct (f y) eqn:Hy; [discriminate|].
  destruct Hin as [->|Hin]; [assumption | now apply IH].
Qed.

Lemma filter_nil_existsb {A} (f : A -> bool) l :
  filter f l = [] -> existsb f l = false.
Proof.
  induction l as [|y l IH]; simpl; intros Hf; [reflexivity|].
  destruct (f y); [discriminate | now apply IH].
Qed.

Lemma filter_cons_existsb {A} (f : A -> bool) l x r :
  filter f l = x :: r -> existsb f l = true.
Proof.
  induction l as [|y l IH]; simpl; intros Hf; [discriminate|].
  destruct (f y); [reflexivity | now apply IH].
Qed.

Lemma existsb_pointwise {A} (f g : A -> bool) l :
  (forall x, f x = g x) -> existsb f l = existsb g l.
Proof.
  intros H. induction l as [|x l IH]; simpl; [reflexivity | now rewrite H, IH].
Qed.

Lemma activePlayers_players st st' :
  players st = players st' -> activePlayers st = activePlayers st'.
Proof.
  unfold activePlayers. now intros ->.
Qed.

(** The players after the elimination pass: the ones newly over the
    ceiling are marked out, the others are as they were. *)
Lemma checkPlayersOut_players st :
  players (snd (checkPlayersOut st))
  = map (fun p => if goesOut st p then markOut p else p) (players st).
Proof.
  unfold checkPlayersOut.
  destruct (map id (filter (goesOut st) (players st))) as [|i out] eqn:Hout; simpl.
  - apply map_eq_nil in Hout.
    pose proof (filter_nil_false _ _ Hout) as Hnone.
    rewrite <- (map_id (players st)) at 1.
    apply map_ext_in. intros p Hp. now rewrite (Hnone p Hp).
  - rewrite checkGameOver_players. simpl.
    apply map_ext. intros p. unfold goesOut.
    destruct (isOut p); simpl; reflexivity.
Qed.

Lemma checkPlayersOut_gameOver st :
  isGameOver (snd (checkPlayersOut st))
  = isGameOver st
    || (existsb (goesOut st) (players st)
        && (length (activePlayers (snd (checkPlayersOut st))) <=? 1)).
Proof.
  unfold checkPlayersOut.
  destruct (map id (filter (goesOut st) (players st))) as [|i out] eqn:Hout; simpl.
  - apply map_eq_nil in Hout. rewrite (filter_nil_existsb _ _ Hout).
    simpl. now rewrite orb_false_r.
  - assert (Hex : existsb (goesOut st) (players st) = true).
    { destruct (filter (goesOut st) (players st)) eqn:Hf; [discriminate|].
      eapply filter_cons_existsb; eassumption. }
    rewrite Hex. simpl.
    match goal with
    | |- context [checkGameOver ?s] =>
        rewrite (activePlayers_players (checkGameOver s) s (checkGameOver_players s));
        unfold checkGameOver; destruct (activePlayers s) as [|w [|w' r]]; simpl
    end.
    + now destruct (isGameOver st).
    + now destruct (isGameOver st).
    + now destruct (isGameOver st).
Qed.

(** C3, as the code has it. [updateScore] rewrites the entries of the
    player in the round and the round's winner, then runs the elimination
    pass only: the active players whose recomputed total exceeds the
    ceiling are marked out, their seat saved, and nobody else changes; so
    a player is out afterwards exactly when the player was out before or
    the recomputed total exceeds the ceiling.  A player who is out stays
    as is whatever the total has become, the rejoin-eligible set is
    untouched, and the game-over flag is raised (never cleared) when the
    edit put somebody out and at most one active player is left. *)
Theorem updateScore_only_eliminates :
  forall (gs : GameService) (rid : nat) (pid : string) (newScore : Z),
    let before := gameState gs in
    let after := gameState (updateScore rid pid newScore gs) in
    rounds after = map (editRound rid pid newScore) (rounds before)
    /\ players after
       = map (fun p => if goesOut after p then markOut p else p) (players before)
    /\ map isOut (players after)
       = map (fun p => isOut p || shouldBeOut after p) (players before)
    /\ (forall p, In p (players before) -> isOut p = true -> In p (players after))
    /\ playersEligibleForRejoin (updateScore rid pid newScore gs)
       = playersEligibleForRejoin gs
    /\ isGameOver after
       = isGameOver before
         || (existsb (goesOut after) (players before)
             && (length (activePlayers after) <=? 1)).
Proof.
  intros gs rid pid newScore before after. subst before after.
  unfold updateScore. simpl.
  set (edited := withRounds (map (editRound rid pid newScore) (rounds (gameState gs)))
                            (gameState gs)).
  assert (Hgo : forall p, goesOut (snd (checkPlayersOut edited)) p = goesOut edited p).
  { intros p. unfold goesOut.
    rewrite (calculatePlayerTotal_rounds _ edited) by apply checkPlayersOut_rounds.
    now rewrite checkPlayersOut_settings. }
  assert (Hsb : forall p, shouldBeOut (snd (checkPlayersOut edited)) p = shouldBeOut edited p).
  { intros p. unfold shouldBeOut.
    rewrite (calculatePlayerTotal_rounds _ edited) by apply checkPlayersOut_rounds.
    now rewrite checkPlayersOut_settings. }
  split; [now rewrite checkPlayersOut_rounds|].
  split.
  { rewrite checkPlayersOut_players. apply map_ext. intros p. now rewrite Hgo. }
  split; [|split; [|split]].
  - rewrite checkPlayersOut_players, map_map. apply map_ext.
    intros p. rewrite Hsb. unfold goesOut, shouldBeOut.
    destruct (isOut p) eqn:Ho; simpl; [exact Ho|].
    match goal with
    | |- context [(?a >? ?b)%Z] => destruct (a >? b)%Z
    end; simpl; [reflexivity | exact Ho].
  - intros p Hp Ho. rewrite checkPlayersOut_players.
    apply in_map_iff. exists p. split; [|exact Hp].
    unfold goesOut. now rewrite Ho.
  - reflexivity.
  - rewrite checkPlayersOut_gameOver.
    rewrite (existsb_pointwise _ _ (players (gameState gs)) Hgo). reflexivity.
Qed.

(** C3, as stated, fails: Carol is out with 110 points against a ceiling
    of 101; her score is edited down to 10, and she is still out. *)
Lemma updateScore_does_not_resurrect :
  let after := gameState (updateScore 1 "c" 10 carolOut) in
  map id (players after) = ["a"; "b"; "c"]
  /\ calculatePlayerTotal after "c" = 10%Z
  /\ maxPoints (settings after) = 101%Z
  /\ map (shouldBeOut after) (players after) = [false; false; false]
  /\ map isOut (players after) = [false; false; true].
Proof.
  vm_compute. repeat split.
Qed.

(* ===================================================================== *)
(** ** Deleting a round *)
(* ===================================================================== *)

Lemma mapiFrom_length {A B} (f : nat -> A -> B) l : forall i,
  length (mapiFrom i f l) = length l.
Proof.
  induction l as [|x l IH]; intros i; simpl; [reflexivity | now rewrite IH].
Qed.

Lemma renumber_ids l : forall i,
  map round_id (mapiFrom i (fun index round => withRoundId (index + 1) round) l)
  = seq (i + 1) (length l).
Proof.
  induction l as [|r l IH]; intros i; simpl; [reflexivity|].
  f_equal. rewrite IH. f_equal.
Qed.

Lemma renumber_scores l : forall i,
  map scores (mapiFrom i (fun index round => withRoundId (index + 1) round) l)
  = map scores l.
Proof.
  induction l as [|r l IH]; intros i; simpl; [reflexivity | now rewrite IH].
Qed.

Lemma recalculatePlayerStatuses_rounds st :
  rounds (recalculatePlayerStatuses st) = rounds st.
Proof.
  unfold recalculatePlayerStatuses.
  destruct (existsb _ (players st)); [|reflexivity].
  now rewrite checkGameOver_rounds.
Qed.

Lemma recalculatePlayerStatuses_settings st :
  settings (recalculatePlayerStatuses st) = settings st.
Proof.
  unfold recalculatePlayerStatuses.
  destruct (existsb _ (players st)); [|reflexivity].
  now rewrite checkGameOver_settings.
Qed.

Lemma compactFrom_isOut l : forall n, map isOut (compactFrom n l) = map isOut l.
Proof.
  induction l as [|p l IH]; intros n; simpl; [reflexivity|].
  destruct (isOut p) eqn:Hp; simpl; now rewrite ?Hp, IH.
Qed.

Lemma compactFrom_id l : forall n, map id (compactFrom n l) = map id l.
Proof.
  induction l as [|p l IH]; intros n; simpl; [reflexivity|].
  destruct (isOut p); simpl; now rewrite IH.
Qed.

(** After compaction the active players hold the column orders
    [n, n+1, ...] in the order of the player list. *)
Lemma compactFrom_columns l : forall n,
  map columnOrder (filter notOut (compactFrom n l))
  = seq n (length (filter notOut l)).
Proof.
  induction l as [|p l IH]; intros n; [reflexivity|].
  cbn [compactFrom filter].
  destruct (isOut p) eqn:Hp.
  - assert (Hn : notOut p = false) by (unfold notOut; now rewrite Hp).
    cbn [filter]. rewrite Hn. apply IH.
  - assert (Hn : notOut p = true) by (unfold notOut; now rewrite Hp).
    assert (Hn' : notOut (withColumnOrder n p) = true) by exact Hn.
    cbn [filter]. rewrite Hn, Hn'. cbn [map length seq]. now rewrite IH.
Qed.

(** The renumbering of [deleteRound]: the rounds that are kept carry the
    numbers 1..N in their former order. *)
Lemma deleteRound_renumbers rid gs :
  let kept := filter (fun r => negb (round_id r =? rid)) (rounds (gameState gs)) in
  map round_id (rounds (gameState (deleteRound rid gs))) = seq 1 (length kept)
  /\ map scores (rounds (gameState (deleteRound rid gs))) = map scores kept.
Proof.
  cbv zeta. unfold deleteRound. simpl.
  rewrite recalculatePlayerStatuses_rounds. simpl. unfold mapi.
  split; [apply (renumber_ids _ 0) | apply renumber_scores].
Qed.

(** The status pass of [deleteRound]: afterwards a player is out exactly
    when the recomputed total exceeds the ceiling. *)
Lemma deleteRound_statuses rid gs :
  let after := gameState (deleteRound rid gs) in
  map id (players after) = map id (players (gameState gs))
  /\ map isOut (players after) = map (shouldBeOut after) (players (gameState gs)).
Proof.
  cbv zeta. unfold deleteRound. simpl.
  set (st := withRounds _ (gameState gs)).
  assert (Hsb : forall p, shouldBeOut (recalculatePlayerStatuses st) p = shouldBeOut st p).
  { intros p. unfold shouldBeOut.
    rewrite (calculatePlayerTotal_rounds _ st) by apply recalculatePlayerStatuses_rounds.
    now rewrite recalculatePlayerStatuses_settings. }
  rewrite (map_ext _ _ Hsb).
  unfold recalculatePlayerStatuses.
  destruct (existsb _ (players st)) eqn:Hch.
  - rewrite checkGameOver_players. simpl.
    rewrite compactFrom_id, compactFrom_isOut, !map_map. split.
    + apply map_ext. intros p. now destruct (Bool.eqb (isOut p) (shouldBeOut st p)).
    + apply map_ext. intros p.
      destruct (Bool.eqb (isOut p) (shouldBeOut st p)) eqn:He; simpl; [|reflexivity].
      now apply Bool.eqb_prop in He.
  - split; [reflexivity|].
    change (players (gameState gs)) with (players st).
    apply map_ext_in. intros p Hp.
    assert (He : negb (Bool.eqb (isOut p) (shouldBeOut st p)) = false).
    { destruct (negb (Bool.eqb (isOut p) (shouldBeOut st p))) eqn:Hn; [|reflexivity].
      assert (existsb (fun q => negb (Bool.eqb (isOut q) (shouldBeOut st q)))
                      (players st) = true) as Hex
        by (apply existsb_exists; exists p; split; assumption).
      congruence. }
    apply negb_false_iff, Bool.eqb_prop in He. exact He.
Qed.

(** When the status pass changes somebody's status, the active players
    are seated anew at 0..N-1 in the order of the player list. *)
Lemma recalculatePlayerStatuses_reseats st :
  existsb (fun p => negb (Bool.eqb (isOut p) (shouldBeOut st p))) (players st) = true ->
  activeColumns (recalculatePlayerStatuses st)
  = seq 0 (length (activeColumns (recalculatePlayerStatuses st))).
Proof.
  intros Hch. unfold activeColumns, recalculatePlayerStatuses. rewrite Hch.
  rewrite checkGameOver_players. cbn [players withPlayers].
  rewrite compactFrom_columns. now rewrite length_seq.
Qed.

(** Neither the status pass nor the game-over check ever clears the
    game-over flag. *)
Lemma deleteRound_keeps_game_over rid gs :
  isGameOver (gameState gs) = true ->
  isGameOver (gameState (deleteRound rid gs)) = true.
Proof.
  intros Hover. unfold deleteRound. simpl.
  unfold recalculatePlayerStatuses.
  match goal with |- context [existsb ?f ?l] => destruct (existsb f l) end;
    [|exact Hover].
  unfold checkGameOver.
  match goal with |- context [activePlayers ?s] =>
    destruct (activePlayers s) as [|w [|w' r]] end; simpl; auto.
Qed.

(** C4 on the code. Bob is out only because of round 2 and the game is
    over.  Deleting round 2 leaves round 1, numbered 1, brings Bob back
    among the active players at seat 1, so that two players are active;
    the game-over flag and the winner are still set. *)
Theorem deleteRound_game_over_not_cleared :
  let before := gameState bobOut in
  let after := gameState (deleteRound 2 bobOut) in
  map isOut (players before) = [false; true]
  /\ isGameOver before = true
  /\ gameWinnerId before = Some "a"
  /\ map round_id (rounds after) = [1]
  /\ calculatePlayerTotal after "b" = 50%Z
  /\ map isOut (players after) = [false; false]
  /\ map columnOrder (activePlayers after) = [0; 1]
  /\ length (activePlayers after) = 2
  /\ isGameOver after = true
  /\ gameWinnerId after = Some "a".
Proof.
  vm_compute. repeat split.
Qed.

(* ===================================================================== *)
(** ** Rejoining *)
(* ===================================================================== *)

Lemma mapiFrom_last {A} (f : A -> A) (x : A) earlier : forall i n,
  n = i + length earlier ->
  mapiFrom i (fun index round => if index =? n then f round else round)
           (earlier ++ [x])
  = earlier ++ [f x].
Proof.
  induction earlier as [|y earlier IH]; intros i n Hn; simpl in *.
  - replace (i =? n) with true by (symmetry; apply Nat.eqb_eq; lia). reflexivity.
  - replace (i =? n) with false by (symmetry; apply Nat.eqb_neq; lia).
    f_equal. apply IH. lia.
Qed.

Lemma mapi_last {A} (f : A -> A) (x : A) earlier :
  mapi (fun index round =>
          if index =? length (earlier ++ [x]) - 1 then f round else round)
       (earlier ++ [x])
  = earlier ++ [f x].
Proof.
  unfold mapi. apply mapiFrom_last. rewrite length_app. simpl. lia.
Qed.

Lemma nth_error_last {A} (x : A) earlier :
  nth_error (earlier ++ [x]) (length (earlier ++ [x]) - 1) = Some x.
Proof.
  rewrite length_app. simpl.
  replace (length earlier + 1 - 1) with (length earlier) by lia.
  rewrite nth_error_app2 by lia. now rewrite Nat.sub_diag.
Qed.

Lemma find_adjustEntry pid z l :
  find (hasPlayerId pid) (map (adjustEntry pid z) l)
  = option_map (withScore z) (find (hasPlayerId pid) l).
Proof.
  induction l as [|s l IH]; simpl; [reflexivity|].
  unfold adjustEntry at 1 2, hasPlayerId at 1 3.
  destruct (playerId s =? pid)%string eqn:Hs; simpl; rewrite Hs; [reflexivity | exact IH].
Qed.




(* ===================================================================== *)
(** ** Dealer and open card *)
(* ===================================================================== *)

Lemma insertByColumnOrder_perm p l : Permutation (p :: l) (insertByColumnOrder p l).
Proof.
  induction l as [|q l IH]; simpl; [apply Permutation_refl|].
  destruct (columnOrder p <=? columnOrder q); [apply Permutation_refl|].
  eapply perm_trans; [apply perm_swap|]. now apply perm_skip.
Qed.

Lemma sortByColumnOrder_perm l : Permutation l (sortByColumnOrder l).
Proof.
  induction l as [|p l IH]; simpl; [apply perm_nil|].
  eapply perm_trans; [|apply insertByColumnOrder_perm]. now apply perm_skip.
Qed.

Lemma insertByColumnOrder_sorted p l :
  Sorted byColumnOrder l -> Sorted byColumnOrder (insertByColumnOrder p l).
Proof.
  induction l as [|q l IH]; simpl; intros Hs.
  - repeat constructor.
  - destruct (columnOrder p <=? columnOrder q) eqn:Hpq.
    + apply Nat.leb_le in Hpq. constructor; [assumption|]. now constructor.
    + apply Nat.leb_gt in Hpq. inversion Hs as [|? ? Hl Hhd]; subst.
      constructor; [now apply IH|].
      destruct l as [|r l]; simpl.
      * constructor. unfold byColumnOrder. lia.
      * destruct (columnOrder p <=? columnOrder r).
        -- constructor. unfold byColumnOrder. lia.
        -- constructor. now inversion Hhd.
Qed.

Lemma sortByColumnOrder_sorted l : Sorted byColumnOrder (sortByColumnOrder l).
Proof.
  induction l as [|p l IH]; simpl; [constructor|].
  now apply insertByColumnOrder_sorted.
Qed.

(** The active players are the players that are not out, in the order of
    their column orders. *)
Lemma activePlayers_sorted st :
  Sorted byColumnOrder (activePlayers st)
  /\ Permutation (filter notOut (players st)) (activePlayers st).
Proof.
  split; [apply sortByColumnOrder_sorted | apply sortByColumnOrder_perm].
Qed.

Lemma advanceOpenCard_active st :
  activePlayers (advanceOpenCard st) = activePlayers st.
Proof.
  apply activePlayers_players, advanceOpenCard_players.
Qed.

Lemma advanceOpenCard_index st :
  2 <= length (activePlayers st) ->
  currentOpenCardPlayerIndex (advanceOpenCard st)
  = (currentOpenCardPlayerIndex st + 1) mod length (activePlayers st).
Proof.
  intros Hn. unfold advanceOpenCard.
  destruct (Nat.ltb_spec (length (activePlayers st)) 2); [lia | reflexivity].
Qed.

Lemma currentOpenCardPlayer_in_range st :
  currentOpenCardPlayerIndex st < length (activePlayers st) ->
  currentOpenCardPlayer st
  = nth_error (activePlayers st) (currentOpenCardPlayerIndex st).
Proof.
  intros Hi. unfold currentOpenCardPlayer.
  destruct (activePlayers st) as [|first rest] eqn:Ha; [simpl in Hi; lia|].
  destruct (nth_error (first :: rest) (currentOpenCardPlayerIndex st)) eqn:Hn;
    [reflexivity|].
  apply nth_error_None in Hn. lia.
Qed.

Lemma currentOpenCardPlayer_out_of_range st :
  length (activePlayers st) <= currentOpenCardPlayerIndex st ->
  currentOpenCardPlayer st = nth_error (activePlayers st) 0.
Proof.
  intros Hi. unfold currentOpenCardPlayer.
  destruct (activePlayers st) as [|first rest] eqn:Ha; [reflexivity|].
  apply nth_error_None in Hi. now rewrite Hi.
Qed.

Lemma currentDealer_in_range st :
  2 <= length (activePlayers st) ->
  currentOpenCardPlayerIndex st < length (activePlayers st) ->
  currentDealer st
  = nth_error (activePlayers st)
              (seatBefore (length (activePlayers st)) (currentOpenCardPlayerIndex st)).
Proof.
  intros Hn Hi. unfold currentDealer.
  destruct (Nat.ltb_spec (length (activePlayers st)) 2); [lia|].
  destruct (nth_error (activePlayers st) (currentOpenCardPlayerIndex st)) eqn:Ho;
    [reflexivity|].
  apply nth_error_None in Ho. lia.
Qed.

Lemma currentDealer_out_of_range st :
  length (activePlayers st) <= currentOpenCardPlayerIndex st ->
  currentDealer st = None.
Proof.
  intros Hi. unfold currentDealer.
  destruct (length (activePlayers st) <? 2); [reflexivity|].
  apply nth_error_None in Hi. now rewrite Hi.
Qed.

Lemma seatBefore_next n i :
  2 <= n -> i < n -> seatBefore n ((i + 1) mod n) = i.
Proof.
  intros Hn Hi. unfold seatBefore.
  destruct (Nat.eq_dec (i + 1) n) as [He|Hne].
  - rewrite He, Nat.Div0.mod_same. simpl. lia.
  - rewrite Nat.mod_small by lia.
    destruct (Nat.eqb_spec (i + 1) 0); lia.
Qed.

(** Dealer and open card, case by case. The active players come in the
    order of their column orders.  Below two active players there is no
    dealer.  With two
    or more and the rotation index inside the active sequence, the open
    card is at the index and the dealer is the active player just before,
    going round from the first seat to the last; advancing moves the open
    card to the next seat and makes the former open-card player dealer.
    With the rotation index outside the active sequence the open card
    falls back on the first active player and there is no dealer.  With
    [A, B, C, D] active and the index at C the dealer is B; after one
    advance the open card is at D and the dealer is C. *)
Lemma currentDealer_precedes_open_card :
  forall (st : GameState),
    let active := activePlayers st in
    let n := length active in
    let i := currentOpenCardPlayerIndex st in
    Sorted byColumnOrder active
    /\ (n < 2 -> currentDealer st = None)
    /\ (2 <= n -> i < n ->
        currentOpenCardPlayer st = nth_error active i
        /\ currentDealer st = nth_error active (seatBefore n i)
        /\ currentDealer st <> None
        /\ currentOpenCardPlayer (advanceOpenCard st) = nth_error active ((i + 1) mod n)
        /\ currentDealer (advanceOpenCard st) = currentOpenCardPlayer st)
    /\ (2 <= n -> n <= i ->
        currentOpenCardPlayer st = nth_error active 0 /\ currentDealer st = None)
    /\ (forall a b c d, active = [a; b; c; d] -> i = 2 ->
        currentOpenCardPlayer st = Some c
        /\ currentDealer st = Some b
        /\ currentOpenCardPlayer (advanceOpenCard st) = Some d
        /\ currentDealer (advanceOpenCard st) = Some c).
Proof.
  intros st active n i.
  assert (Hin : 2 <= n -> i < n ->
        currentOpenCardPlayer st = nth_error active i
        /\ currentDealer st = nth_error active (seatBefore n i)
        /\ currentDealer st <> None
        /\ currentOpenCardPlayer (advanceOpenCard st) = nth_error active ((i + 1) mod n)
        /\ currentDealer (advanceOpenCard st) = currentOpenCardPlayer st).
  { intros Hn Hi. subst active n i.
    assert (Hnext : (currentOpenCardPlayerIndex st + 1) mod length (activePlayers st)
                    < length (activePlayers st))
      by (apply Nat.mod_upper_bound; lia).
    split; [now apply currentOpenCardPlayer_in_range|].
    split; [now apply currentDealer_in_range|].
    split.
    { rewrite currentDealer_in_range by assumption.
      apply nth_error_Some. unfold seatBefore.
      destruct (currentOpenCardPlayerIndex st =? 0); lia. }
    split.
    - rewrite currentOpenCardPlayer_in_range;
        rewrite advanceOpenCard_active, advanceOpenCard_index; auto.
    - rewrite currentDealer_in_range;
        rewrite advanceOpenCard_active, ?advanceOpenCard_index; auto.
      rewrite seatBefore_next by assumption.
      symmetry. now apply currentOpenCardPlayer_in_range. }
  split; [apply sortByColumnOrder_sorted|].
  split.
  { intros Hn. subst active n. unfold currentDealer.
    destruct (Nat.ltb_spec (length (activePlayers st)) 2); [reflexivity | lia]. }
  split; [exact Hin|].
  split.
  { intros Hn Hi. subst active n i.
    split; [now apply currentOpenCardPlayer_out_of_range
           | now apply currentDealer_out_of_range]. }
  intros a b c d Ha Hi.
  assert (Hn : n = 4) by (subst n; now rewrite Ha).
  destruct Hin as (Ho & Hd & _ & Ho' & Hd'); [lia | lia |].
  rewrite Ho' , Hd', Ho, Hd, Hn, Hi, Ha. repeat split.
Qed.

Lemma currentDealer_precedes_open_card_examples :
  let alice := mkPlayer "a" "Alice" false 0 None 0 in
  let bob := mkPlayer "b" "Bob" false 1 None 0 in
  let carol := mkPlayer "c" "Carol" false 2 None 0 in
  let dave := mkPlayer "d" "Dave" false 3 None 0 in
  let st := gameState fourPlayers in
  (activePlayers st = [alice; bob; carol; dave]
   /\ currentOpenCardPlayerIndex st = 2
   /\ currentOpenCardPlayer st = Some carol
   /\ currentDealer st = Some bob
   /\ currentOpenCardPlayer (advanceOpenCard st) = Some dave
   /\ currentDealer (advanceOpenCard st) = Some carol)
  /\ (length (activePlayers DEFAULT_GAME_STATE) < 2
      /\ currentDealer DEFAULT_GAME_STATE = None)
  /\ (2 <= length (activePlayers st)
      /\ currentOpenCardPlayerIndex st < length (activePlayers st)
      /\ currentDealer (advanceOpenCard st) = currentOpenCardPlayer st)
  /\ (2 <= length (activePlayers (gameState carolRemoved))
      /\ length (activePlayers (gameState carolRemoved))
         <= currentOpenCardPlayerIndex (gameState carolRemoved)
      /\ currentDealer (gameState carolRemoved) = None).
Proof.
  cbv zeta.
  pose proof (currentDealer_precedes_open_card (gameState fourPlayers)) as Hfour.
  pose proof (currentDealer_precedes_open_card DEFAULT_GAME_STATE) as Hnone.
  pose proof (currentDealer_precedes_open_card (gameState carolRemoved)) as Hstale.
  cbv zeta in Hfour, Hnone, Hstale.
  destruct Hfour as (_ & _ & Hin & _ & Hex).
  destruct Hnone as (_ & Hbelow & _).
  destruct Hstale as (_ & _ & _ & Hout & _).
  split; [|split; [|split]].
  - split; [reflexivity|]. split; [reflexivity|].
    apply (Hex (mkPlayer "a" "Alice" false 0 None 0) (mkPlayer "b" "Bob" false 1 None 0)
               (mkPlayer "c" "Carol" false 2 None 0) (mkPlayer "d" "Dave" false 3 None 0));
      reflexivity.
  - assert (H : length (activePlayers DEFAULT_GAME_STATE) < 2) by (vm_compute; lia).
    split; [exact H | exact (Hbelow H)].
  - assert (H2 : 2 <= length (activePlayers (gameState fourPlayers)))
      by (vm_compute; lia).
    assert (Hi : currentOpenCardPlayerIndex (gameState fourPlayers)
                 < length (activePlayers (gameState fourPlayers)))
      by (vm_compute; lia).
    split; [exact H2|]. split; [exact Hi|].
    apply (Hin H2 Hi).
  - assert (H2 : 2 <= length (activePlayers (gameState carolRemoved)))
      by (vm_compute; lia).
    assert (Hi : length (activePlayers (gameState carolRemoved))
                 <= currentOpenCardPlayerIndex (gameState carolRemoved))
      by (vm_compute; lia).
    split; [exact H2|]. split; [exact Hi|].
    apply (Hout H2 Hi).
Defined.

(** C6 on the code. Alice, Bob, Carol and Dave are seated in this order
    and Dave holds the open card; Dave is removed.  Alice, Bob and Carol
    are active, the rotation index still reads 3, the open card falls
    back on Alice, the first active player, and the player before her,
    going round, is Carol: yet there is no dealer. *)
Theorem currentDealer_none_when_index_stale :
  let st := gameState daveRemoved in
  map id (activePlayers st) = ["a"; "b"; "c"]
  /\ currentOpenCardPlayerIndex st = 3
  /\ option_map id (currentOpenCardPlayer st) = Some "a"
  /\ option_map id (nth_error (activePlayers st) (seatBefore 3 0)) = Some "c"
  /\ currentDealer st = None.
Proof.
  vm_compute. repeat split.
Qed.

(* ===================================================================== *)
(** ** The rejoin window *)
(* ===================================================================== *)

Lemma addRound_settings submitted now gs :
  settings (gameState (addRound submitted now gs)) = settings (gameState gs).
Proof.
  unfold addRound.
  match goal with
  | |- context [checkPlayersOut ?s] =>
      pose proof (checkPlayersOut_settings s) as Hs;
      destruct (checkPlayersOut s) as [out checked]
  end.
  simpl in *. now rewrite advanceOpenCard_settings, Hs.
Qed.

Lemma set_when_nonempty (l : list string) :
  (if 0 <? length l then l else []) = l.
Proof.
  now destruct l.
Qed.

Lemma addRound_eligible submitted now gs :
  playersEligibleForRejoin (addRound submitted now gs)
  = map id (eliminatedBy (gameState gs) (gameState (addRound submitted now gs))).
Proof.
  unfold eliminatedBy.
  assert (Hsb : forall p,
    shouldBeOut (gameState (addRound submitted now gs)) p
    = shouldBeOut
        (withRounds
           (rounds (gameState gs)
            ++ [mkRound (length (rounds (gameState gs)) + 1) submitted
                        (winnerOf submitted) now])
           (gameState gs)) p).
  { intros p. unfold shouldBeOut.
    rewrite addRound_settings.
    f_equal. apply calculatePlayerTotal_rounds. now rewrite addRound_rounds. }
  rewrite (filter_ext _ _ (fun p => f_equal (andb (negb (isOut p))) (Hsb p))).
  unfold addRound.
  match goal with
  | |- context [checkPlayersOut ?s] =>
      pose proof (checkPlayersOut_ids s) as Hi;
      destruct (checkPlayersOut s) as [out checked]
  end.
  cbn [fst snd gameState playersEligibleForRejoin withEligible] in *. subst out.
  rewrite set_when_nonempty. reflexivity.
Qed.

Lemma includes_In x l : includes x l = true -> In x l.
Proof.
  unfold includes. intros H. apply existsb_exists in H.
  destruct H as (y & Hy & He). apply String.eqb_eq in He. now subst.
Qed.

Lemma NoDup_map_injective {A B} (f : A -> B) l a b :
  NoDup (map f l) -> In a l -> In b l -> f a = f b -> a = b.
Proof.
  induction l as [|x l IH]; simpl; intros Hnd Ha Hb Hf; [contradiction|].
  inversion Hnd as [|? ? Hnot Hnd']; subst.
  destruct Ha as [->|Ha], Hb as [->|Hb].
  - reflexivity.
  - exfalso. apply Hnot. rewrite Hf. now apply in_map.
  - exfalso. apply Hnot. rewrite <- Hf. now apply in_map.
  - now apply IH.
Qed.

(** No operation but [addRound] adds a player to the rejoin-eligible
    set. *)
Lemma perform_shrinks_eligible o gs :
  (forall submitted now, o <> OpAddRound submitted now) ->
  incl (playersEligibleForRejoin (perform o gs)) (playersEligibleForRejoin gs).
Proof.
  intros Hop. destruct o; cbn [perform]; try apply incl_refl.
  - unfold addPlayer.
    destruct (isPlayerNameTaken _ _); [apply incl_refl|].
    destruct (findRemovedPlayer _ _); apply incl_refl.
  - unfold addJoinScoreForNewPlayer.
    destruct (find _ _); [|apply incl_refl].
    destruct (length _ =? 0); apply incl_refl.
  - unfold rejoinPlayer.
    destruct (find _ _); [|apply incl_refl].
    destruct (negb _ || negb _); [apply incl_refl|].
    apply incl_filter.
  - unfold removePlayer.
    destruct (find _ _); [|apply incl_refl].
    apply incl_filter.
  - exfalso. now apply (Hop submitted now).
  - apply incl_nil_l.
  - apply incl_nil_l.
  - apply incl_nil_l.
Qed.

(** C7. Whatever the rejoin-eligible set held, after [addRound] it holds
    exactly the players that this submission put out.  Hence a player
    with [canRejoin] after the submission was active before it and is over
    the ceiling with it; player ids being distinct, a player who was
    already out when the round was submitted has [canRejoin] false
    afterwards; and no other operation adds a player to the set. *)
Theorem rejoin_window_closes_with_next_round :
  forall (gs : GameService) (submitted : list RoundScore) (now : Z),
    let after := addRound submitted now gs in
    playersEligibleForRejoin after
    = map id (eliminatedBy (gameState gs) (gameState after))
    /\ (forall pw, In pw (playersWithTotals after) -> canRejoin pw = true ->
        exists p, In p (players (gameState gs))
                  /\ id p = id (base pw)
                  /\ isOut p = false
                  /\ shouldBeOut (gameState after) p = true)
    /\ (NoDup (map id (players (gameState gs))) ->
        forall p pw,
          In p (players (gameState gs)) -> isOut p = true ->
          In pw (playersWithTotals after) -> id (base pw) = id p ->
          canRejoin pw = false)
    /\ (forall o, (forall l t, o <> OpAddRound l t) ->
        incl (playersEligibleForRejoin (perform o gs)) (playersEligibleForRejoin gs)).
Proof.
  intros gs submitted now after.
  assert (Helig : playersEligibleForRejoin after
                  = map id (eliminatedBy (gameState gs) (gameState after)))
    by apply addRound_eligible.
  assert (Honly : forall pw, In pw (playersWithTotals after) -> canRejoin pw = true ->
        exists p, In p (players (gameState gs))
                  /\ id p = id (base pw)
                  /\ isOut p = false
                  /\ shouldBeOut (gameState after) p = true).
  { intros pw Hpw Hcan. unfold playersWithTotals in Hpw.
    apply in_map_iff in Hpw. destruct Hpw as (q & <- & Hq).
    unfold playerWithTotal in Hcan. simpl in Hcan.
    apply andb_prop in Hcan. destruct Hcan as [Hcan _].
    apply andb_prop in Hcan. destruct Hcan as [Hcan _].
    apply andb_prop in Hcan. destruct Hcan as [_ Hinc].
    apply includes_In in Hinc. rewrite Helig in Hinc.
    apply in_map_iff in Hinc. destruct Hinc as (p & Hid & Hp).
    unfold eliminatedBy in Hp. apply filter_In in Hp. destruct Hp as [Hp Hgo].
    apply andb_prop in Hgo. destruct Hgo as [Hact Hover].
    exists p. simpl. repeat split; try assumption.
    now apply negb_true_iff in Hact. }
  split; [exact Helig|]. split; [exact Honly|]. split.
  - intros Hnd p pw Hp Hout Hpw Hid.
    destruct (canRejoin pw) eqn:Hcan; [|reflexivity].
    destruct (Honly pw Hpw Hcan) as (q & Hq & Hqid & Hqact & _).
    assert (q = p) by (apply (NoDup_map_injective id (players (gameState gs)));
                       try assumption; congruence).
    subst q. congruence.
  - intros o Ho. now apply perform_shrinks_eligible.
Qed.

Lemma rejoin_window_closes_with_next_round_witness :
  let carol := mkPlayer "c" "Carol" true 2 (Some 2) 0 in
  let next := addRound [mkRoundScore "a" 0; mkRoundScore "b" 5] 2 carolOut in
  NoDup (map id (players (gameState carolOut)))
  /\ In carol (players (gameState carolOut))
  /\ canRejoin (playerWithTotal carolOut carol) = true
  /\ In (playerWithTotal next carol) (playersWithTotals next)
  /\ canRejoin (playerWithTotal next carol) = false.
Proof.
  cbv zeta.
  pose proof (rejoin_window_closes_with_next_round carolOut
                [mkRoundScore "a" 0; mkRoundScore "b" 5] 2%Z) as H.
  cbv zeta in H. destruct H as (_ & _ & H & _).
  assert (Hnd : NoDup (map id (players (gameState carolOut)))).
  { vm_compute. repeat constructor; simpl; intuition discriminate. }
  assert (Hin : In (mkPlayer "c" "Carol" true 2 (Some 2) 0)
                   (players (gameState carolOut))).
  { vm_compute. right. right. left. reflexivity. }
  assert (Hpw : In (playerWithTotal
                      (addRound [mkRoundScore "a" 0; mkRoundScore "b" 5] 2 carolOut)
                      (mkPlayer "c" "Carol" true 2 (Some 2) 0))
                   (playersWithTotals
                      (addRound [mkRoundScore "a" 0; mkRoundScore "b" 5] 2 carolOut))).
  { vm_compute. right. right. left. reflexivity. }
  split; [exact Hnd|]. split; [exact Hin|]. split; [reflexivity|].
  split; [exact Hpw|].
  exact (H Hnd _ _ Hin eq_refl Hpw eq_refl).
Defined.

(* ===================================================================== *)
(** ** Column orders of the active players *)
(* ===================================================================== *)

Lemma filter_map_preserved {A} (f : A -> bool) (g : A -> A) l :
  (forall x, f (g x) = f x) -> filter f (map g l) = map g (filter f l).
Proof.
  intros H. induction l as [|x l IH]; simpl; [reflexivity|].
  rewrite H. destruct (f x); simpl; now rewrite IH.
Qed.

Lemma findIndex_found {A} (f : A -> bool) l x :
  In x l -> f x = true -> exists i, findIndex f l = Some i.
Proof.
  induction l as [|y l IH]; simpl; intros Hin Hf; [contradiction|].
  destruct (f y) eqn:Hy; [now exists 0|].
  destruct Hin as [->|Hin]; [congruence|].
  destruct (IH Hin Hf) as (i & ->). now exists (S i).
Qed.

Lemma indexOf_found x l : In x l -> exists i, indexOf x l = Some i.
Proof.
  intros Hin. apply (findIndex_found _ l x Hin). apply String.eqb_refl.
Qed.

Lemma indexOf_enumerates l :
  NoDup l -> map (fun x => maxZeroIndex (indexOf x l)) l = seq 0 (length l).
Proof.
  induction l as [|x l IH]; simpl; intros Hnd; [reflexivity|].
  inversion Hnd as [|? ? Hnot Hnd']; subst.
  unfold indexOf at 1. simpl. rewrite String.eqb_refl. simpl. f_equal.
  rewrite <- seq_shift, <- (IH Hnd'), map_map.
  apply map_ext_in. intros y Hy.
  unfold indexOf at 1. simpl.
  destruct (String.eqb_spec y x) as [->|Hne]; [contradiction|].
  destruct (indexOf_found y l Hy) as (i & Hi).
  unfold indexOf in Hi |- *. now rewrite Hi.
Qed.

Lemma reorderPlayers_dense playerIds gs :
  NoDup (map id (players (gameState gs))) ->
  Permutation playerIds (map id (filter notOut (players (gameState gs)))) ->
  denseActive (gameState (reorderPlayers playerIds gs)).
Proof.
  intros Hnd Hperm.
  assert (Hids : NoDup playerIds).
  { apply (Permutation_NoDup (Permutation_sym Hperm)).
    clear Hperm. induction (players (gameState gs)) as [|p l IH]; simpl; [constructor|].
    inversion Hnd as [|? ? Hnot Hnd']; subst.
    destruct (notOut p); simpl; [|now apply IH].
    constructor; [|now apply IH].
    intros Hin. apply Hnot. apply in_map_iff in Hin.
    destruct Hin as (q & Hq & Hin). apply filter_In in Hin.
    rewrite <- Hq. apply in_map. tauto. }
  assert (Hcols : activeColumns (gameState (reorderPlayers playerIds gs))
                  = map (fun x => maxZeroIndex (indexOf x playerIds))
                        (map id (filter notOut (players (gameState gs))))).
  { unfold activeColumns, reorderPlayers. simpl.
    rewrite filter_map_preserved
      by (intros p; now destruct (indexOf (id p) playerIds)).
    rewrite !map_map. apply map_ext_in. intros p Hp.
    assert (Hin : In (id p) playerIds).
    { apply (Permutation_in _ (Permutation_sym Hperm)). now apply in_map. }
    destruct (indexOf_found _ _ Hin) as (i & ->). reflexivity. }
  unfold denseActive. rewrite Hcols.
  rewrite !length_map, <- (length_map id), <- (Permutation_length Hperm).
  rewrite <- (indexOf_enumerates playerIds Hids).
  apply Permutation_map, Permutation_sym, Hperm.
Qed.

Lemma shiftFrom_injective o : Injective (shiftFrom o).
Proof.
  intros a b. unfold shiftFrom.
  destruct (Nat.leb_spec o a), (Nat.leb_spec o b); lia.
Qed.

Lemma shiftFrom_misses o c : shiftFrom o c <> o.
Proof.
  unfold shiftFrom. destruct (Nat.leb_spec o c); lia.
Qed.

(** The seats of the players other than the one that rejoins. *)
Lemma rejoin_shifts_others pid o l :
  ~ In pid (map id l) ->
  map columnOrder
      (filter notOut
         (map (fun p =>
                 if (id p =? pid)%string then reinstate o p
                 else if negb (isOut p) && (o <=? columnOrder p)
                      then withColumnOrder (columnOrder p + 1) p
                      else p) l))
  = map (shiftFrom o) (map columnOrder (filter notOut l)).
Proof.
  set (h := fun p : Player =>
              if (id p =? pid)%string then reinstate o p
              else if negb (isOut p) && (o <=? columnOrder p)
                   then withColumnOrder (columnOrder p + 1) p
                   else p).
  induction l as [|p l IH]; intros Hnot; [reflexivity|].
  assert (Hl : ~ In pid (map id l)) by (intros H; apply Hnot; now right).
  assert (Hh : h p = if negb (isOut p) && (o <=? columnOrder p)
                     then withColumnOrder (columnOrder p + 1) p else p).
  { unfold h. destruct (String.eqb_spec (id p) pid) as [He|Hne]; [|reflexivity].
    exfalso. apply Hnot. now left. }
  cbn [map filter]. rewrite Hh.
  destruct (isOut p) eqn:Ho; cbn [negb andb].
  - assert (Hn : notOut p = false) by (unfold notOut; now rewrite Ho).
    rewrite Hn. now apply IH.
  - assert (Hn : notOut p = true) by (unfold notOut; now rewrite Ho).
    destruct (o <=? columnOrder p) eqn:Hle.
    + assert (Hn' : notOut (withColumnOrder (columnOrder p + 1) p) = true) by exact Hn.
      rewrite Hn, Hn'. cbn [map]. unfold shiftFrom at 1. rewrite Hle.
      cbn [withColumnOrder columnOrder]. f_equal. now apply IH.
    + rewrite Hn. cbn [map]. unfold shiftFrom at 1. rewrite Hle.
      f_equal. now apply IH.
Qed.

Lemma rejoin_columns_distinct pid o l1 rejoining l2 :
  id rejoining = pid -> isOut rejoining = true ->
  ~ In pid (map id l1) -> ~ In pid (map id l2) ->
  NoDup (map columnOrder (filter notOut (l1 ++ rejoining :: l2))) ->
  NoDup (map columnOrder
           (filter notOut
              (map (fun p =>
                      if (id p =? pid)%string then reinstate o p
                      else if negb (isOut p) && (o <=? columnOrder p)
                           then withColumnOrder (columnOrder p + 1) p
                           else p)
                   (l1 ++ rejoining :: l2)))).
Proof.
  intros Hid Hout Hn1 Hn2 Hcols.
  assert (Hn : notOut rejoining = false) by (unfold notOut; now rewrite Hout).
  rewrite filter_app, map_app in Hcols. cbn [filter] in Hcols. rewrite Hn in Hcols.
  rewrite map_app, filter_app, map_app. cbn [map filter].
  rewrite Hid, String.eqb_refl.
  assert (Hn' : notOut (reinstate o rejoining) = true) by reflexivity.
  rewrite Hn'. cbn [map]. rewrite !rejoin_shifts_others by assumption.
  apply (Permutation_NoDup (Permutation_middle _ _ _)).
  rewrite <- map_app. constructor.
  - intros Hin'. apply in_map_iff in Hin'.
    destruct Hin' as (c & Hc & _). now apply shiftFrom_misses in Hc.
  - apply Injective_map_NoDup; [apply shiftFrom_injective | exact Hcols].
Qed.

Lemma rejoinPlayer_keeps_columns_distinct pid gs :
  NoDup (map id (players (gameState gs))) ->
  NoDup (activeColumns (gameState gs)) ->
  NoDup (activeColumns (gameState (rejoinPlayer pid gs))).
Proof.
  intros Hids Hcols. unfold rejoinPlayer.
  destruct (find (fun p => (id p =? pid)%string) (players (gameState gs)))
    as [rejoining|] eqn:Hfind; [|exact Hcols].
  destruct (negb (isOut rejoining)
            || negb (includes pid (playersEligibleForRejoin gs))) eqn:Hguard;
    [exact Hcols|].
  apply orb_false_elim in Hguard. destruct Hguard as [Hout _].
  apply negb_false_iff in Hout.
  apply find_some in Hfind. destruct Hfind as [Hin Hid].
  apply String.eqb_eq in Hid.
  destruct (in_split _ _ Hin) as (l1 & l2 & Hsplit).
  unfold activeColumns in *.
  cbn [gameState players withPlayers withRounds withOpenCardIndex withGameOver
       withGameWinnerId].
  rewrite Hsplit in *.
  rewrite map_app in Hids. cbn [map] in Hids.
  pose proof (NoDup_remove_2 _ _ _ Hids) as Hnot. rewrite Hid in Hnot.
  apply rejoin_columns_distinct; try assumption.
  - intros H; apply Hnot, in_or_app; now left.
  - intros H; apply Hnot, in_or_app; now right.
Qed.

(** C8, as the code has it. Player ids being distinct: after
    [reorderPlayers] with a list that names each active player once and
    nobody else, the column orders of the active players are the numbers
    0..N-1, each once; after [rejoinPlayer] they are pairwise distinct
    when they were so before (the player put back takes the saved seat
    and the active players at or after it move up by one). *)
Theorem active_columns_after_reorder_and_rejoin :
  forall (gs : GameService),
    NoDup (map id (players (gameState gs))) ->
    (forall playerIds,
        Permutation playerIds (map id (filter notOut (players (gameState gs)))) ->
        denseActive (gameState (reorderPlayers playerIds gs)))
    /\ (forall pid,
           NoDup (activeColumns (gameState gs)) ->
           NoDup (activeColumns (gameState (rejoinPlayer pid gs)))).
Proof.
  intros gs Hids. split.
  - intros playerIds Hperm. now apply reorderPlayers_dense.
  - intros pid Hcols. now apply rejoinPlayer_keeps_columns_distinct.
Qed.

Lemma active_columns_after_reorder_and_rejoin_witness :
  (NoDup (map id (players (gameState threePlayers)))
   /\ Permutation ["c"; "a"; "b"]
                  (map id (filter notOut (players (gameState threePlayers))))
   /\ denseActive (gameState (reorderPlayers ["c"; "a"; "b"] threePlayers)))
  /\ (NoDup (map id (players (gameState bobOutOfThree)))
      /\ NoDup (activeColumns (gameState bobOutOfThree))
      /\ NoDup (activeColumns (gameState (rejoinPlayer "b" bobOutOfThree)))).
Proof.
  assert (H3 : NoDup (map id (players (gameState threePlayers)))).
  { vm_compute. repeat constructor; simpl; intuition discriminate. }
  assert (Hp : Permutation ["c"; "a"; "b"]
                 (map id (filter notOut (players (gameState threePlayers))))).
  { change (Permutation ("c" :: ["a"; "b"]) (["a"; "b"] ++ ["c"])).
    apply Permutation_cons_append. }
  assert (Hb : NoDup (map id (players (gameState bobOutOfThree)))).
  { vm_compute. repeat constructor; simpl; intuition discriminate. }
  assert (Hc : NoDup (activeColumns (gameState bobOutOfThree))).
  { vm_compute. repeat constructor; simpl; intuition discriminate. }
  split.
  - split; [exact H3|]. split; [exact Hp|].
    exact (proj1 (active_columns_after_reorder_and_rejoin threePlayers H3) _ Hp).
  - split; [exact Hb|]. split; [exact Hc|].
    exact (proj2 (active_columns_after_reorder_and_rejoin bobOutOfThree Hb) "b" Hc).
Defined.

(** C8, as stated, fails in three reachable states: a reorder with a list
    that names Bob only seats Alice and Bob both at 0; the round that puts
    Bob out leaves the seats 0 and 2; and putting Bob back then gives the
    seats 0, 1 and 3. *)
Lemma active_columns_not_always_dense :
  let reordered := reorderPlayers ["b"] threePlayers in
  let rejoined := rejoinPlayer "b" bobOutOfThree in
  (reachable reordered /\ activeColumns (gameState reordered) = [0; 0; 2]
   /\ ~ denseActive (gameState reordered))
  /\ (reachable bobOutOfThree /\ activeColumns (gameState bobOutOfThree) = [0; 2]
      /\ ~ denseActive (gameState bobOutOfThree))
  /\ (reachable rejoined /\ activeColumns (gameState rejoined) = [0; 1; 3]
      /\ ~ denseActive (gameState rejoined)).
Proof.
  cbv zeta. split; [|split].
  - split.
    { exists [OpInitializeGame 101 20;
              OpAddPlayer "Alice" "a"; OpAddPlayer "Bob" "b"; OpAddPlayer "Carol" "c";
              OpReorderPlayers ["b"]]. reflexivity. }
    split; [reflexivity|].
    unfold denseActive. intros H.
    assert (Hin : In 1 (activeColumns (gameState (reorderPlayers ["b"] threePlayers)))).
    { apply (Permutation_in _ (Permutation_sym H)). vm_compute. tauto. }
    vm_compute in Hin. intuition discriminate.
  - split.
    { exists [OpInitializeGame 101 20;
              OpAddPlayer "Alice" "a"; OpAddPlayer "Bob" "b"; OpAddPlayer "Carol" "c";
              OpAddRound [mkRoundScore "a" 0; mkRoundScore "b" 110; mkRoundScore "c" 10] 1].
      reflexivity. }
    split; [reflexivity|].
    unfold denseActive. intros H.
    assert (Hin : In 1 (activeColumns (gameState bobOutOfThree))).
    { apply (Permutation_in _ (Permutation_sym H)). vm_compute. tauto. }
    vm_compute in Hin. intuition discriminate.
  - split.
    { exists [OpInitializeGame 101 20;
              OpAddPlayer "Alice" "a"; OpAddPlayer "Bob" "b"; OpAddPlayer "Carol" "c";
              OpAddRound [mkRoundScore "a" 0; mkRoundScore "b" 110; mkRoundScore "c" 10] 1;
              OpRejoinPlayer "b"]. reflexivity. }
    split; [reflexivity|].
    unfold denseActive. intros H.
    assert (Hin : In 2 (activeColumns (gameState (rejoinPlayer "b" bobOutOfThree)))).
    { apply (Permutation_in _ (Permutation_sym H)). vm_compute. tauto. }
    vm_compute in Hin. intuition discriminate.
Qed.

(* ===================================================================== *)
(** ** Adding a player whose tombstone is kept *)
(* ===================================================================== *)

Lemma addPlayer_restore nm fresh gs removedPlayer :
  isPlayerNameTaken (trim nm) (gameState gs) = false ->
  findRemovedPlayer (trim nm) (gameState gs) = Some removedPlayer ->
  addPlayer nm fresh gs
  = (true,
     withGameState
       (withRemovedPlayers
          (filter (fun rp => negb (sameLowerName (name (player rp)) (trim nm)))
                  (removedPlayers (gameState gs)))
          (withRounds
             (map (restoreScore removedPlayer (id (player removedPlayer)))
                  (rounds (gameState gs)))
             (withPlayers
                (players (gameState gs)
                 ++ [restoredFrom removedPlayer
                       (length (filter notOut (players (gameState gs))))])
                (gameState gs))))
       gs).
Proof.
  intros Htaken Hfound. unfold addPlayer. now rewrite Htaken, Hfound.
Qed.

(** C10. When the name is free and a tombstone is kept under it,
    [addPlayer] returns true and appends the tombstone's player, not out
    and seated after the players active so far, whatever the restored
    total; the other players, the settings, the game-over flag, the winner
    and the rejoin-eligible set are as before: no elimination pass runs. *)
Theorem addPlayer_restores_without_recheck :
  forall (gs : GameService) (nm fresh : string) (removedPlayer : RemovedPlayer),
    isPlayerNameTaken (trim nm) (gameState gs) = false ->
    findRemovedPlayer (trim nm) (gameState gs) = Some removedPlayer ->
    let before := gameState gs in
    let after := gameState (snd (addPlayer nm fresh gs)) in
    let restored :=
      restoredFrom removedPlayer (length (filter notOut (players before))) in
    fst (addPlayer nm fresh gs) = true
    /\ players after = players before ++ [restored]
    /\ isOut restored = false
    /\ columnOrder restored = length (filter notOut (players before))
    /\ calculatePlayerTotal after (id restored)
       = totalFor (map (restoreScore removedPlayer (id restored)) (rounds before))
                  (id restored)
    /\ settings after = settings before
    /\ isGameOver after = isGameOver before
    /\ gameWinnerId after = gameWinnerId before
    /\ playersEligibleForRejoin (snd (addPlayer nm fresh gs))
       = playersEligibleForRejoin gs.
Proof.
  intros gs nm fresh removedPlayer Htaken Hfound before after restored.
  subst before after restored.
  rewrite (addPlayer_restore nm fresh gs removedPlayer Htaken Hfound).
  cbn [fst snd]. repeat split.
  apply calculatePlayerTotal_totalFor.
Qed.

Lemma addPlayer_restores_without_recheck_witness :
  let after := gameState (snd (addPlayer "carol" "x" carolOutRemoved)) in
  let carol := mkPlayer "c" "Carol" false 2 (Some 2) 0 in
  isPlayerNameTaken (trim "carol") (gameState carolOutRemoved) = false
  /\ players after = players (gameState carolOutRemoved) ++ [carol]
  /\ calculatePlayerTotal after "c" = 110%Z
  /\ maxPoints (settings after) = 101%Z
  /\ shouldBeOut after carol = true
  /\ isOut carol = false.
Proof.
  cbv zeta.
  pose proof (addPlayer_restores_without_recheck carolOutRemoved "carol" "x"
                (mkRemovedPlayer (mkPlayer "c" "Carol" true 2 (Some 2) 0)
                                 [mkSavedScore 1 110])
                eq_refl eq_refl) as H.
  cbv zeta in H. destruct H as (_ & Hplayers & Hactive & _).
  split; [reflexivity|].
  split; [exact Hplayers|].
  split; [reflexivity|]. split; [reflexivity|]. split; [reflexivity|].
  exact Hactive.
Defined.

(* ===================================================================== *)
(** ** Removing a player and adding the player again *)
(* ===================================================================== *)

Lemma trimEnd_idempotent s : trimEnd (trimEnd s) = trimEnd s.
Proof.
  induction s as [|c r IH]; simpl; [reflexivity|].
  destruct (trimEnd r) as [|c' r'] eqn:Hr.
  - destruct (isSpace c) eqn:Hc; simpl; [reflexivity | now rewrite Hc].
  - simpl in *. now rewrite IH.
Qed.

Lemma trimStart_trimEnd s :
  trimStart s = s -> trimStart (trimEnd s) = trimEnd s.
Proof.
  destruct s as [|c r]; simpl; [reflexivity|].
  destruct (isSpace c) eqn:Hc.
  - intros H. exfalso.
    assert (Hlen : forall t, String.length (trimStart t) <= String.length t).
    { clear. induction t as [|d t IH]; simpl; [lia|].
      destruct (isSpace d); simpl; lia. }
    pose proof (Hlen r) as Hr. rewrite H in Hr. simpl in Hr. lia.
  - intros _. destruct (trimEnd r); simpl; now rewrite Hc.
Qed.

Lemma trimStart_idempotent s : trimStart (trimStart s) = trimStart s.
Proof.
  induction s as [|c r IH]; simpl; [reflexivity|].
  destruct (isSpace c) eqn:Hc; [exact IH | simpl; now rewrite Hc].
Qed.

Lemma trim_idempotent s : trim (trim s) = trim s.
Proof.
  unfold trim.
  rewrite (trimStart_trimEnd (trimStart s)) by apply trimStart_idempotent.
  apply trimEnd_idempotent.
Qed.

Lemma find_app {A} (f : A -> bool) l l' :
  find f (l ++ l') = match find f l with
                     | Some x => Some x
                     | None => find f l'
                     end.
Proof.
  induction l as [|x l IH]; simpl; [reflexivity|].
  now destruct (f x).
Qed.

Lemma find_none_all {A} (f : A -> bool) l :
  (forall x, In x l -> f x = false) -> find f l = None.
Proof.
  induction l as [|x l IH]; simpl; intros H; [reflexivity|].
  rewrite (H x) by now left. apply IH. intros y Hy. apply H. now right.
Qed.

Lemma NoDup_app_disjoint {A} (l l' : list A) x :
  NoDup (l ++ l') -> In x l -> ~ In x l'.
Proof.
  induction l as [|y l IH]; simpl; intros Hnd Hin; [contradiction|].
  inversion Hnd as [|? ? Hnot Hnd']; subst.
  destruct Hin as [->|Hin]; [|now apply IH].
  intros Hx. apply Hnot, in_or_app. now right.
Qed.









Lemma compactFrom_In l : forall n q',
  In q' (compactFrom n l) -> exists q, In q l /\ name q = name q' /\ id q = id q'.
Proof.
  induction l as [|p l IH]; intros n q'; simpl; [contradiction|].
  destruct (isOut p); simpl; intros [<-|Hin].
  - exists p. auto.
  - destruct (IH _ _ Hin) as (q & Hq & Hn). exists q. auto.
  - exists p. auto.
  - destruct (IH _ _ Hin) as (q & Hq & Hn). exists q. auto.
Qed.

(** Right after a removal the name is free when no other player bears
    it, up to case. *)
Lemma removePlayer_frees_name gs pid nm removed :
  find (fun q => (id q =? pid)%string) (players (gameState gs)) = Some removed ->
  toLowerCase (trim nm) = toLowerCase (name removed) ->
  (forall q, In q (players (gameState gs)) -> id q <> pid ->
             toLowerCase (name q) <> toLowerCase (name removed)) ->
  isPlayerNameTaken (trim nm) (gameState (removePlayer pid gs)) = false.
Proof.
  intros Hfind Hname Hothers. unfold removePlayer. rewrite Hfind.
  unfold isPlayerNameTaken. cbn [gameState].
  rewrite checkGameOver_players. cbn [players withPlayers].
  rewrite trim_idempotent, Hname.
  destruct (existsb _ _) eqn:Hex; [|reflexivity].
  apply existsb_exists in Hex. destruct Hex as (q' & Hq' & He).
  apply compactFrom_In in Hq'. destruct Hq' as (q & Hq & Hn & _).
  apply filter_In in Hq. destruct Hq as [Hq Hne].
  apply negb_true_iff, String.eqb_neq in Hne.
  apply String.eqb_eq in He. rewrite <- Hn in He.
  now apply (Hothers q Hq Hne) in He.
Qed.

(** Right after a removal the ledger is kept, round numbers being
    distinct. *)
Lemma removePlayer_keeps_ledger gs pid removed :
  find (fun q => (id q =? pid)%string) (players (gameState gs)) = Some removed ->
  NoDup (map round_id (rounds (gameState gs))) ->
  ledgerKept pid (rounds (gameState gs)) (rounds (gameState (removePlayer pid gs))).
Proof.
  intros Hfind Hnd. unfold removePlayer. rewrite Hfind. cbn [gameState].
  rewrite checkGameOver_rounds. cbn [rounds withRemovedPlayers withRounds].
  exists (map (stripPlayer pid) (rounds (gameState gs))), [].
  split; [now rewrite app_nil_r|]. split; [|split].
  - induction (rounds (gameState gs)) as [|r rs IH]; simpl; constructor;
      [reflexivity|].
    apply IH. now inversion Hnd.
  - rewrite map_map. exact Hnd.
  - apply Forall_forall. intros r2 Hr2. apply in_map_iff in Hr2.
    destruct Hr2 as (r & <- & _). simpl. apply find_none_all.
    intros e He. apply filter_In in He. destruct He as [_ He].
    apply negb_true_iff in He. exact He.
Qed.




(* ===================================================================== *)
(** ** Reading and editing scores *)
(* ===================================================================== *)

Lemma find_map_preserved {A} (f : A -> bool) (g : A -> A) l :
  (forall x, f (g x) = f x) -> find f (map g l) = option_map g (find f l).
Proof.
  intros H. induction l as [|x l IH]; simpl; [reflexivity|].
  rewrite H. now destruct (f x).
Qed.

Lemma editRound_id rid pid z r : round_id (editRound rid pid z r) = round_id r.
Proof.
  unfold editRound. now destruct (round_id r =? rid).
Qed.

Lemma editRound_scores rid pid z r :
  scores (editRound rid pid z r)
  = if round_id r =? rid then map (adjustEntry pid z) (scores r) else scores r.
Proof.
  unfold editRound. now destruct (round_id r =? rid).
Qed.

Lemma editRound_other rid pid z r : round_id r <> rid -> editRound rid pid z r = r.
Proof.
  intros H. unfold editRound. apply Nat.eqb_neq in H. now rewrite H.
Qed.

Lemma updateScore_rounds rid pid z gs :
  rounds (gameState (updateScore rid pid z gs))
  = map (editRound rid pid z) (rounds (gameState gs)).
Proof.
  unfold updateScore. cbn [gameState withGameState].
  now rewrite checkPlayersOut_rounds.
Qed.

Lemma find_adjusted q pid z l :
  find (hasPlayerId q) (map (adjustEntry pid z) l)
  = option_map (adjustEntry pid z) (find (hasPlayerId q) l).
Proof.
  apply find_map_preserved. intros s. unfold adjustEntry, hasPlayerId.
  now destruct (playerId s =? pid)%string.
Qed.

(** X1. What [getPlayerScore] reads after [updateScore]: the new score
    where the edited round and player are read and the player had a
    score there, and what was read before everywhere else. *)
Theorem getPlayerScore_after_updateScore :
  forall (gs : GameService) (rid : nat) (pid : string) (z : Z)
         (rid' : nat) (pid' : string),
    getPlayerScore rid' pid' (gameState (updateScore rid pid z gs))
    = if (rid' =? rid) && (pid' =? pid)%string
      then option_map (fun _ => z) (getPlayerScore rid' pid' (gameState gs))
      else getPlayerScore rid' pid' (gameState gs).
Proof.
  intros gs rid pid z rid' pid'. unfold getPlayerScore.
  rewrite updateScore_rounds.
  rewrite find_map_preserved by (intros r; now rewrite editRound_id).
  destruct (find (fun r => round_id r =? rid') (rounds (gameState gs))) as [r|] eqn:Hf;
    simpl; [|now destruct ((rid' =? rid) && (pid' =? pid)%string)].
  apply find_some in Hf. destruct Hf as [_ Hid]. apply Nat.eqb_eq in Hid.
  rewrite editRound_scores, Hid.
  destruct (rid' =? rid); simpl; [|reflexivity].
  rewrite find_adjusted.
  destruct (find (hasPlayerId pid') (scores r)) as [e|] eqn:He; simpl;
    [|now destruct (pid' =? pid)%string].
  apply find_some in He. destruct He as [_ He]. unfold hasPlayerId in He.
  apply String.eqb_eq in He. unfold adjustEntry. rewrite He.
  now destruct (pid' =? pid)%string.
Qed.

Lemma totalFor_same_scores rs rs' pid :
  map scores rs = map scores rs' -> totalFor rs pid = totalFor rs' pid.
Proof.
  revert rs'. induction rs as [|r rs IH]; intros [|r' rs'] H; simpl in *;
    try discriminate; [reflexivity|].
  inversion H as [[Hr Hrs]]. unfold scoreInRound. rewrite Hr.
  now rewrite (IH rs' Hrs).
Qed.

Lemma scoreInRound_edit_other rid pid z q r :
  q <> pid -> scoreInRound q (editRound rid pid z r) = scoreInRound q r.
Proof.
  intros Hq. unfold scoreInRound. rewrite editRound_scores.
  destruct (round_id r =? rid); [|reflexivity].
  rewrite find_adjusted.
  destruct (find (hasPlayerId q) (scores r)) as [e|] eqn:He; simpl; [|reflexivity].
  apply find_some in He. destruct He as [_ He]. unfold hasPlayerId in He.
  apply String.eqb_eq in He. unfold adjustEntry. rewrite He.
  destruct (String.eqb_spec q pid); [contradiction | reflexivity].
Qed.

Lemma map_edit_absent rid pid z rs :
  ~ In rid (map round_id rs) -> map (editRound rid pid z) rs = rs.
Proof.
  intros H. rewrite <- (map_id rs) at 2. apply map_ext_in.
  intros r Hr. apply editRound_other. intros He. apply H. rewrite <- He.
  now apply in_map.
Qed.

Lemma totalFor_edit rid pid z rs r e :
  NoDup (map round_id rs) -> In r rs -> round_id r = rid ->
  find (hasPlayerId pid) (scores r) = Some e ->
  totalFor (map (editRound rid pid z) rs) pid = (totalFor rs pid - score e + z)%Z.
Proof.
  induction rs as [|r0 rs IH]; simpl; intros Hnd Hin Hid He; [contradiction|].
  inversion Hnd as [|? ? Hnot Hnd']; subst.
  destruct Hin as [->|Hin].
  - rewrite map_edit_absent by assumption.
    unfold scoreInRound. rewrite editRound_scores, Nat.eqb_refl, find_adjusted, He.
    simpl. unfold adjustEntry.
    assert (Hp : (playerId e =? pid)%string = true).
    { apply find_some in He. exact (proj2 He). }
    rewrite Hp. simpl. lia.
  - assert (Hne : round_id r0 <> round_id r).
    { intros Heq. apply Hnot. rewrite Heq. now apply in_map. }
    rewrite (editRound_other _ _ _ _ Hne), (IH Hnd' Hin eq_refl He). lia.
Qed.

(** X2. How [updateScore] moves the totals: the total of every other
    player is unchanged; round numbers being distinct, the total of the
    edited player moves by the difference between the new score and the
    score held in the edited round. *)
Theorem updateScore_moves_one_total :
  forall (gs : GameService) (rid : nat) (pid : string) (z : Z),
    let before := gameState gs in
    let after := gameState (updateScore rid pid z gs) in
    (forall q, q <> pid -> calculatePlayerTotal after q = calculatePlayerTotal before q)
    /\ (forall r e,
           NoDup (map round_id (rounds before)) ->
           In r (rounds before) -> round_id r = rid ->
           find (hasPlayerId pid) (scores r) = Some e ->
           calculatePlayerTotal after pid
           = (calculatePlayerTotal before pid - score e + z)%Z).
Proof.
  intros gs rid pid z before after. subst before after. split.
  - intros q Hq. rewrite !calculatePlayerTotal_totalFor, updateScore_rounds.
    induction (rounds (gameState gs)) as [|r rs IH]; simpl; [reflexivity|].
    now rewrite scoreInRound_edit_other, IH.
  - intros r e Hnd Hin Hid He.
    rewrite !calculatePlayerTotal_totalFor, updateScore_rounds.
    now apply (totalFor_edit rid pid z _ r e).
Qed.

Lemma updateScore_moves_one_total_witness :
  let r1 := mkRound 1 [mkRoundScore "a" 10; mkRoundScore "b" 20; mkRoundScore "c" 0]
                    (Some "c") 1 in
  NoDup (map round_id (rounds (gameState twoRounds)))
  /\ In r1 (rounds (gameState twoRounds))
  /\ calculatePlayerTotal (gameState twoRounds) "a" = 11%Z
  /\ calculatePlayerTotal (gameState (updateScore 1 "a" 30 twoRounds)) "a"
     = (calculatePlayerTotal (gameState twoRounds) "a" - 10 + 30)%Z
  /\ calculatePlayerTotal (gameState (updateScore 1 "a" 30 twoRounds)) "b"
     = calculatePlayerTotal (gameState twoRounds) "b".
Proof.
  cbv zeta.
  pose proof (updateScore_moves_one_total twoRounds 1 "a" 30%Z) as H.
  cbv zeta in H. destruct H as [Hothers Hedited].
  assert (Hnd : NoDup (map round_id (rounds (gameState twoRounds)))).
  { vm_compute. repeat constructor; simpl; intuition discriminate. }
  assert (Hin : In (mkRound 1 [mkRoundScore "a" 10; mkRoundScore "b" 20;
                               mkRoundScore "c" 0] (Some "c") 1)
                   (rounds (gameState twoRounds))).
  { vm_compute. left. reflexivity. }
  split; [exact Hnd|]. split; [exact Hin|]. split; [reflexivity|]. split.
  - exact (Hedited _ (mkRoundScore "a" 10) Hnd Hin eq_refl eq_refl).
  - apply Hothers. discriminate.
Defined.

Lemma zeroCount_fold pid z l : forall c,
  fold_left
    (fun count s =>
       if (playerId s =? pid)%string then
         (if (z =? 0)%Z then S count else count)
       else if (score s =? 0)%Z then S count else count)
    l c
  = c + zeroCount (map (adjustEntry pid z) l).
Proof.
  unfold zeroCount.
  induction l as [|s l IH]; intros c; simpl; [lia|].
  rewrite IH. unfold adjustEntry at 2.
  destruct (playerId s =? pid)%string; simpl.
  - destruct (z =? 0)%Z; simpl; lia.
  - destruct (score s =? 0)%Z; simpl; lia.
Qed.

(** X3. [wouldCreateMultipleWinners] answers for the edit it is asked
    about: it is true exactly when the first round bearing the number
    would hold more than one zero score once edited, and false when no
    round bears the number.  Hence, round numbers being distinct, when it
    answers false no round bearing the number holds more than one zero
    score after [updateScore]. *)
Theorem wouldCreateMultipleWinners_counts_edited_zeros :
  forall (gs : GameService) (rid : nat) (pid : string) (z : Z),
    wouldCreateMultipleWinners rid pid z (gameState gs)
    = match find (fun r => round_id r =? rid) (rounds (gameState gs)) with
      | Some r => 1 <? zeroCount (scores (editRound rid pid z r))
      | None => false
      end
    /\ (NoDup (map round_id (rounds (gameState gs))) ->
        wouldCreateMultipleWinners rid pid z (gameState gs) = false ->
        forall r', In r' (rounds (gameState (updateScore rid pid z gs))) ->
                   round_id r' = rid -> zeroCount (scores r') <= 1).
Proof.
  intros gs rid pid z.
  assert (Hspec : wouldCreateMultipleWinners rid pid z (gameState gs)
    = match find (fun r => round_id r =? rid) (rounds (gameState gs)) with
      | Some r => 1 <? zeroCount (scores (editRound rid pid z r))
      | None => false
      end).
  { unfold wouldCreateMultipleWinners.
    destruct (find (fun r => round_id r =? rid) (rounds (gameState gs))) as [r|] eqn:Hf;
      [|reflexivity].
    apply find_some in Hf. destruct Hf as [_ Hid].
    rewrite editRound_scores, Hid, zeroCount_fold. reflexivity. }
  split; [exact Hspec|].
  intros Hnd Hno r' Hr' Hid. rewrite updateScore_rounds in Hr'.
  apply in_map_iff in Hr'. destruct Hr' as (r & <- & Hr).
  rewrite editRound_id in Hid.
  destruct (find (fun r0 => round_id r0 =? rid) (rounds (gameState gs))) as [r1|] eqn:Hf.
  - apply find_some in Hf. destruct Hf as [Hr1 Hid1]. apply Nat.eqb_eq in Hid1.
    assert (r1 = r).
    { apply (NoDup_map_injective round_id (rounds (gameState gs)));
        try assumption. congruence. }
    subst r1. rewrite Hspec in Hno. apply Nat.ltb_ge in Hno. exact Hno.
  - exfalso. pose proof (find_none _ _ Hf r Hr) as Hn. simpl in Hn.
    apply Nat.eqb_neq in Hn. contradiction.
Qed.

Lemma wouldCreateMultipleWinners_counts_edited_zeros_witness :
  NoDup (map round_id (rounds (gameState twoRounds)))
  /\ wouldCreateMultipleWinners 2 "a" 5 (gameState twoRounds) = false
  /\ wouldCreateMultipleWinners 2 "a" 0 (gameState twoRounds) = true
  /\ forall r', In r' (rounds (gameState (updateScore 2 "a" 5 twoRounds))) ->
                round_id r' = 2 -> zeroCount (scores r') <= 1.
Proof.
  assert (Hnd : NoDup (map round_id (rounds (gameState twoRounds)))).
  { vm_compute. repeat constructor; simpl; intuition discriminate. }
  split; [exact Hnd|]. split; [reflexivity|]. split; [reflexivity|].
  exact (proj2 (wouldCreateMultipleWinners_counts_edited_zeros twoRounds 2 "a" 5%Z)
               Hnd eq_refl).
Defined.

(* ===================================================================== *)
(** ** Deleting a round and the totals *)
(* ===================================================================== *)

Lemma deleteRound_rounds_scores rid gs :
  map scores (rounds (gameState (deleteRound rid gs)))
  = map scores (filter (fun r => negb (round_id r =? rid)) (rounds (gameState gs))).
Proof.
  exact (proj2 (deleteRound_renumbers rid gs)).
Qed.

Lemma filter_absent rid (rs : list Round) :
  ~ In rid (map round_id rs) ->
  filter (fun r => negb (round_id r =? rid)) rs = rs.
Proof.
  induction rs as [|r rs IH]; simpl; intros H; [reflexivity|].
  destruct (Nat.eqb_spec (round_id r) rid) as [He|Hne]; simpl.
  - exfalso. apply H. now left.
  - f_equal. apply IH. intros Hin. apply H. now right.
Qed.

Lemma totalFor_without rid rs r q :
  NoDup (map round_id rs) -> In r rs -> round_id r = rid ->
  totalFor (filter (fun r0 => negb (round_id r0 =? rid)) rs) q
  = (totalFor rs q - scoreInRound q r)%Z.
Proof.
  induction rs as [|r0 rs IH]; simpl; intros Hnd Hin Hid; [contradiction|].
  inversion Hnd as [|? ? Hnot Hnd']; subst.
  destruct Hin as [->|Hin].
  - rewrite Nat.eqb_refl. simpl. rewrite filter_absent by assumption. lia.
  - assert (Hne : round_id r0 <> round_id r).
    { intros Heq. apply Hnot. rewrite Heq. now apply in_map. }
    apply Nat.eqb_neq in Hne. rewrite Hne. simpl.
    rewrite (IH Hnd' Hin eq_refl). lia.
Qed.

Lemma mapiFrom_renumber_same rs : forall i,
  map round_id rs = seq (i + 1) (length rs) ->
  mapiFrom i (fun index round => withRoundId (index + 1) round) rs = rs.
Proof.
  induction rs as [|r rs IH]; intros i H; simpl in *; [reflexivity|].
  inversion H as [[Hr Hrs]]. f_equal.
  - destruct r. unfold withRoundId. simpl in *. now rewrite Hr.
  - apply IH. rewrite Hrs. f_equal. lia.
Qed.

(** X4. [deleteRound] and the totals. Round numbers being distinct,
    deleting a recorded round lowers the total of every player by the
    score the player had in that round.  When the rounds are numbered
    1..N and no round bears the number, the ledger is unchanged. *)
Theorem deleteRound_subtracts_round :
  forall (gs : GameService) (rid : nat),
    let before := gameState gs in
    let after := gameState (deleteRound rid gs) in
    (forall r q,
        NoDup (map round_id (rounds before)) ->
        In r (rounds before) -> round_id r = rid ->
        calculatePlayerTotal after q
        = (calculatePlayerTotal before q - scoreInRound q r)%Z)
    /\ (numberedFromOne (rounds before) ->
        ~ In rid (map round_id (rounds before)) ->
        rounds after = rounds before).
Proof.
  intros gs rid before after. subst before after. split.
  - intros r q Hnd Hin Hid.
    rewrite !calculatePlayerTotal_totalFor.
    rewrite (totalFor_same_scores _ _ q (deleteRound_rounds_scores rid gs)).
    now apply totalFor_without.
  - intros Hnum Hno. unfold deleteRound. cbn [gameState].
    rewrite recalculatePlayerStatuses_rounds. cbn [rounds withRounds].
    rewrite filter_absent by assumption.
    unfold mapi. apply mapiFrom_renumber_same. exact Hnum.
Qed.

Lemma deleteRound_subtracts_round_witness :
  let r1 := mkRound 1 [mkRoundScore "a" 10; mkRoundScore "b" 20; mkRoundScore "c" 0]
                    (Some "c") 1 in
  (NoDup (map round_id (rounds (gameState twoRounds)))
   /\ In r1 (rounds (gameState twoRounds))
   /\ calculatePlayerTotal (gameState (deleteRound 1 twoRounds)) "b"
      = (calculatePlayerTotal (gameState twoRounds) "b" - scoreInRound "b" r1)%Z)
  /\ (numberedFromOne (rounds (gameState twoRounds))
      /\ ~ In 7 (map round_id (rounds (gameState twoRounds)))
      /\ rounds (gameState (deleteRound 7 twoRounds)) = rounds (gameState twoRounds)).
Proof.
  cbv zeta.
  assert (Hnd : NoDup (map round_id (rounds (gameState twoRounds)))).
  { vm_compute. repeat constructor; simpl; intuition discriminate. }
  assert (Hin : In (mkRound 1 [mkRoundScore "a" 10; mkRoundScore "b" 20;
                               mkRoundScore "c" 0] (Some "c") 1)
                   (rounds (gameState twoRounds))).
  { vm_compute. left. reflexivity. }
  assert (Hnum : numberedFromOne (rounds (gameState twoRounds))) by reflexivity.
  assert (Hno : ~ In 7 (map round_id (rounds (gameState twoRounds)))).
  { vm_compute. intuition discriminate. }
  split.
  - split; [exact Hnd|]. split; [exact Hin|].
    exact (proj1 (deleteRound_subtracts_round twoRounds 1) _ "b" Hnd Hin eq_refl).
  - split; [exact Hnum|]. split; [exact Hno|].
    exact (proj2 (deleteRound_subtracts_round twoRounds 7) Hnum Hno).
Defined.

(* ===================================================================== *)
(** ** What the operations keep of the roster and of the ledger *)
(* ===================================================================== *)

Ltac split_cases :=
  repeat match goal with
         | |- context [match ?x with _ => _ end] => destruct x
         end;
  try reflexivity.

Lemma checkPlayersOut_removedPlayers st :
  removedPlayers (snd (checkPlayersOut st)) = removedPlayers st.
Proof.
  unfold checkPlayersOut.
  destruct (map id (filter (goesOut st) (players st))); simpl;
    [reflexivity | now rewrite checkGameOver_removedPlayers].
Qed.

Lemma map_identity_map (f : Player -> Player) l :
  (forall p, identity (f p) = identity p) ->
  map identity (map f l) = map identity l.
Proof.
  intros H. rewrite map_map. now apply map_ext.
Qed.

Lemma map_identity_compactFrom l : forall n,
  map identity (compactFrom n l) = map identity l.
Proof.
  induction l as [|p l IH]; intros n; simpl; [reflexivity|].
  destruct (isOut p); simpl; now rewrite IH.
Qed.

Lemma map_identity_mapiFrom (f : nat -> Player -> Player) l :
  (forall i p, identity (f i p) = identity p) ->
  forall i, map identity (mapiFrom i f l) = map identity l.
Proof.
  intros H. induction l as [|p l IH]; intros i; simpl; [reflexivity|].
  now rewrite H, IH.
Qed.

Lemma map_round_id_map (f : Round -> Round) l :
  (forall r, round_id (f r) = round_id r) ->
  map round_id (map f l) = map round_id l.
Proof.
  intros H. rewrite map_map. now apply map_ext.
Qed.

Lemma map_round_id_mapiFrom (f : nat -> Round -> Round) l :
  (forall i r, round_id (f i r) = round_id r) ->
  forall i, map round_id (mapiFrom i f l) = map round_id l.
Proof.
  intros H. induction l as [|r l IH]; intros i; simpl; [reflexivity|].
  now rewrite H, IH.
Qed.

Lemma addRound_players submitted now gs :
  players (gameState (addRound submitted now gs))
  = map (fun p => if goesOut (gameState (addRound submitted now gs)) p
                  then markOut p else p)
        (players (gameState gs)).
Proof.
  assert (Hgo : forall p,
    goesOut (gameState (addRound submitted now gs)) p
    = goesOut
        (withRounds
           (rounds (gameState gs)
            ++ [mkRound (length (rounds (gameState gs)) + 1) submitted
                        (winnerOf submitted) now])
           (gameState gs)) p).
  { intros p. unfold goesOut. rewrite addRound_settings. f_equal. f_equal.
    apply calculatePlayerTotal_rounds. now rewrite addRound_rounds. }
  erewrite map_ext; [|intros p; rewrite Hgo; reflexivity].
  unfold addRound.
  match goal with
  | |- context [checkPlayersOut ?s] =>
      pose proof (checkPlayersOut_players s) as Hp;
      destruct (checkPlayersOut s) as [out checked]
  end.
  cbn [fst snd gameState] in *. now rewrite advanceOpenCard_players, Hp.
Qed.

Lemma addRound_removedPlayers submitted now gs :
  removedPlayers (gameState (addRound submitted now gs))
  = removedPlayers (gameState gs).
Proof.
  unfold addRound.
  match goal with
  | |- context [checkPlayersOut ?s] =>
      pose proof (checkPlayersOut_removedPlayers s) as Hp;
      destruct (checkPlayersOut s) as [out checked]
  end.
  cbn [fst snd gameState] in *.
  unfold advanceOpenCard. destruct (length (activePlayers checked) <? 2); exact Hp.
Qed.

(** The operations that do not add, remove or reset leave the ids and
    names of the players, in their order, and the tombstones as they
    are. *)
Lemma perform_keeps_roster o gs :
  changesRoster o = false ->
  map identity (players (gameState (perform o gs)))
  = map identity (players (gameState gs))
  /\ removedPlayers (gameState (perform o gs)) = removedPlayers (gameState gs).
Proof.
  intros Ho. destruct o; try discriminate; cbn [perform].
  - split; reflexivity.
  - split; reflexivity.
  - unfold addJoinScoreForNewPlayer.
    destruct (find _ _); [|split; reflexivity].
    destruct (length _ =? 0); split; reflexivity.
  - unfold rejoinPlayer.
    destruct (find _ _); [|split; reflexivity].
    destruct (negb _ || negb _); [split; reflexivity|].
    cbn [gameState players removedPlayers withPlayers withRounds withOpenCardIndex
         withGameOver withGameWinnerId].
    split; [|reflexivity].
    apply map_identity_map. intros q.
    destruct (id q =? pid)%string; [reflexivity|].
    now destruct (negb (isOut q) && _).
  - unfold reorderPlayers. cbn [gameState withGameState players removedPlayers withPlayers].
    split; [|reflexivity].
    apply map_identity_map. intros q. now destruct (indexOf (id q) playerIds).
  - split; [|apply addRound_removedPlayers].
    rewrite addRound_players. apply map_identity_map.
    intros q. now destruct (goesOut _ q).
  - unfold updateScore. cbn [gameState withGameState].
    split; [|now rewrite checkPlayersOut_removedPlayers].
    rewrite checkPlayersOut_players. apply map_identity_map.
    intros q. now destruct (goesOut _ q).
  - unfold deleteRound, recalculatePlayerStatuses. cbn [gameState].
    destruct (existsb _ _); [|split; reflexivity].
    rewrite checkGameOver_players, checkGameOver_removedPlayers.
    cbn [players removedPlayers withPlayers withRounds].
    split; [|reflexivity].
    rewrite map_identity_compactFrom. apply map_identity_map.
    intros q. now destruct (Bool.eqb (isOut q) _).
  - cbn [gameState withGameState]. unfold advanceOpenCard.
    destruct (length _ <? 2); split; reflexivity.
  - cbn [gameState withGameState]. unfold setOpenCardPlayer.
    destruct (findIndex _ _); split; reflexivity.
  - cbn [gameState withGameState]. unfold setDealer.
    destruct (findIndex _ _); split; reflexivity.
  - unfold newGame. cbn [gameState players removedPlayers withPlayers withRounds
                         withOpenCardIndex withGameOver withGameWinnerId].
    split; [|reflexivity]. unfold mapi. now apply map_identity_mapiFrom.
Qed.

Lemma seq_snoc a n : seq a (S n) = seq a n ++ [a + n].
Proof.
  apply seq_S.
Qed.

Lemma numberedFromOne_same rs rs' :
  map round_id rs' = map round_id rs -> numberedFromOne rs -> numberedFromOne rs'.
Proof.
  unfold numberedFromOne. intros H Hn.
  rewrite H, Hn. f_equal.
  rewrite <- (length_map round_id rs), <- (length_map round_id rs'). now rewrite H.
Qed.

Lemma restoreScore_id rp pid r : round_id (restoreScore rp pid r) = round_id r.
Proof.
  unfold restoreScore. now destruct (find _ _).
Qed.

(** Every operation keeps the rounds numbered 1..N. *)
Lemma perform_keeps_numbering o gs :
  numberedFromOne (rounds (gameState gs)) ->
  numberedFromOne (rounds (gameState (perform o gs))).
Proof.
  intros Hn. destruct o; cbn [perform]; try exact Hn.
  - unfold addPlayer.
    destruct (isPlayerNameTaken _ _); [exact Hn|].
    destruct (findRemovedPlayer _ _); [|exact Hn].
    cbn [snd gameState withGameState rounds withRemovedPlayers withRounds].
    eapply numberedFromOne_same; [|exact Hn].
    apply map_round_id_map. intros r0. apply restoreScore_id.
  - unfold addJoinScoreForNewPlayer.
    destruct (find _ _); [|exact Hn].
    destruct (length _ =? 0); [exact Hn|].
    cbn [gameState withGameState rounds withOpenCardIndex withRounds].
    eapply numberedFromOne_same; [|exact Hn].
    unfold mapi. apply map_round_id_mapiFrom.
    intros i r0. now destruct (i =? _).
  - unfold rejoinPlayer.
    destruct (find _ _); [|exact Hn].
    destruct (negb _ || negb _); [exact Hn|].
    cbn [gameState rounds withPlayers withRounds withOpenCardIndex
         withGameOver withGameWinnerId].
    eapply numberedFromOne_same; [|exact Hn].
    unfold mapi. apply map_round_id_mapiFrom.
    intros i r0. now destruct (i =? _).
  - unfold removePlayer.
    destruct (find _ _); [|exact Hn].
    cbn [gameState]. rewrite checkGameOver_rounds.
    cbn [rounds withRemovedPlayers withRounds].
    eapply numberedFromOne_same; [|exact Hn].
    now apply map_round_id_map.
  - unfold numberedFromOne in *. rewrite addRound_rounds, map_app, length_app, Hn.
    cbn [map length round_id]. rewrite Nat.add_comm at 2.
    cbn [Nat.add]. rewrite seq_snoc. f_equal. f_equal. lia.
  - eapply numberedFromOne_same; [|exact Hn].
    rewrite updateScore_rounds. apply map_round_id_map.
    intros r0. apply editRound_id.
  - unfold numberedFromOne.
    rewrite (proj1 (deleteRound_renumbers rid gs)). f_equal.
    rewrite <- (length_map scores (rounds _)), deleteRound_rounds_scores.
    now rewrite length_map.
  - cbn [gameState withGameState]. now rewrite advanceOpenCard_rounds.
  - cbn [gameState withGameState]. unfold setOpenCardPlayer.
    now destruct (findIndex _ _).
  - cbn [gameState withGameState]. unfold setDealer.
    now destruct (findIndex _ _).
  - reflexivity.
  - reflexivity.
Qed.

Lemma run_invariant (P : GameService -> Prop) :
  (forall o gs, P gs -> P (perform o gs)) ->
  forall ops gs, P gs -> P (run ops gs).
Proof.
  intros Hstep. unfold run.
  induction ops as [|o ops IH]; intros gs Hgs; simpl; [exact Hgs|].
  apply IH. now apply Hstep.
Qed.

(** X5. In every reachable state the rounds are numbered 1..N, in order;
    so the numbers are distinct, and [getMostRecentRoundId] is the number
    of rounds, or none when no round is recorded. *)
Theorem reachable_rounds_numbered :
  forall (gs : GameService),
    reachable gs ->
    let rs := rounds (gameState gs) in
    map round_id rs = seq 1 (length rs)
    /\ NoDup (map round_id rs)
    /\ getMostRecentRoundId (gameState gs)
       = if length rs =? 0 then None else Some (length rs).
Proof.
  intros gs [ops ->] rs. subst rs.
  assert (Hn : numberedFromOne (rounds (gameState (run ops initialService)))).
  { apply (run_invariant (fun s => numberedFromOne (rounds (gameState s)))).
    - intros o s. apply perform_keeps_numbering.
    - reflexivity. }
  set (rs := rounds (gameState (run ops initialService))) in *.
  split; [exact Hn|]. split.
  - rewrite Hn. apply seq_NoDup.
  - unfold getMostRecentRoundId. fold rs.
    destruct (length rs) as [|n] eqn:Hlen.
    + destruct rs; [reflexivity | discriminate].
    + cbn [Nat.eqb]. replace (S n - 1) with n by lia.
      unfold numberedFromOne in Hn. rewrite Hlen in Hn.
      rewrite <- nth_error_map, Hn, seq_snoc.
      rewrite nth_error_app2; rewrite length_seq; [|lia].
      now rewrite Nat.sub_diag.
Qed.

Lemma reachable_rounds_numbered_witness :
  reachable twoRounds
  /\ map round_id (rounds (gameState twoRounds)) = [1; 2]
  /\ getMostRecentRoundId (gameState twoRounds) = Some 2.
Proof.
  assert (Hr : reachable twoRounds).
  { exists [OpInitializeGame 101 20;
            OpAddPlayer "Alice" "a"; OpAddPlayer "Bob" "b"; OpAddPlayer "Carol" "c";
            OpAddRound [mkRoundScore "a" 10; mkRoundScore "b" 20; mkRoundScore "c" 0] 1;
            OpAddRound [mkRoundScore "a" 1; mkRoundScore "b" 2; mkRoundScore "c" 0] 2].
    reflexivity. }
  pose proof (reachable_rounds_numbered twoRounds Hr) as H.
  cbv zeta in H. destruct H as (Hn & _ & Hm).
  split; [exact Hr|]. split; [exact Hn | exact Hm].
Defined.

(* ===================================================================== *)
(** ** Names and ids in use *)
(* ===================================================================== *)

Lemma NoDup_map_filter {A B} (f : A -> B) (a : A -> bool) l :
  NoDup (map f l) -> NoDup (map f (filter a l)).
Proof.
  induction l as [|x l IH]; simpl; intros Hnd; [constructor|].
  inversion Hnd as [|? ? Hnot Hnd']; subst.
  destruct (a x); simpl; [|now apply IH].
  constructor; [|now apply IH].
  intros Hin. apply Hnot. apply in_map_iff in Hin.
  destruct Hin as (y & Hy & Hin). apply filter_In in Hin.
  rewrite <- Hy. apply in_map. tauto.
Qed.

Lemma incl_map_filter {A B} (f : A -> B) (a : A -> bool) l :
  incl (map f (filter a l)) (map f l).
Proof.
  intros x Hin. apply in_map_iff in Hin. destruct Hin as (y & Hy & Hin).
  apply filter_In in Hin. rewrite <- Hy. apply in_map. tauto.
Qed.

Lemma NoDup_grow {X} (A B A' B' : list X) x :
  NoDup (A ++ B) -> incl A' A -> incl B' B -> NoDup A' -> NoDup B' ->
  ~ In x A' -> ~ In x B' ->
  NoDup ((A' ++ [x]) ++ B') /\ NoDup (A' ++ B' ++ [x]).
Proof.
  intros Hnd HA HB HA' HB' HxA HxB.
  assert (Hbase : NoDup (x :: A' ++ B')).
  { constructor.
    - intros Hin. apply in_app_or in Hin. tauto.
    - apply NoDup_app; try assumption.
      intros a Ha Hb. apply (NoDup_app_disjoint A B a Hnd); auto. }
  split.
  - rewrite <- app_assoc. simpl.
    apply (Permutation_NoDup (Permutation_middle _ _ _)). exact Hbase.
  - rewrite app_assoc.
    apply (Permutation_NoDup (Permutation_cons_append _ _)). exact Hbase.
Qed.

Lemma lowerName_identity l l' :
  map identity l = map identity l' -> map lowerName l = map lowerName l'.
Proof.
  intros H.
  assert (Hl : forall k, map lowerName k = map (fun x => toLowerCase (snd x)) (map identity k)).
  { intros k. rewrite map_map. reflexivity. }
  now rewrite (Hl l), (Hl l'), H.
Qed.

Lemma id_identity l l' :
  map identity l = map identity l' -> map id l = map id l'.
Proof.
  intros H.
  assert (Hl : forall k, map id k = map fst (map identity k)).
  { intros k. rewrite map_map. reflexivity. }
  now rewrite (Hl l), (Hl l'), H.
Qed.

Lemma nameTaken_false nm st :
  isPlayerNameTaken (trim nm) st = false ->
  ~ In (toLowerCase (trim nm)) (map lowerName (players st)).
Proof.
  unfold isPlayerNameTaken. rewrite trim_idempotent. intros H Hin.
  apply in_map_iff in Hin. destruct Hin as (p & Hp & Hin).
  assert (Hex : existsb (fun q => (toLowerCase (name q) =? toLowerCase (trim nm))%string)
                        (players st) = true).
  { apply existsb_exists. exists p. split; [exact Hin|].
    apply String.eqb_eq. exact Hp. }
  congruence.
Qed.

Lemma tombstone_absent nm st :
  findRemovedPlayer (trim nm) st = None ->
  ~ In (toLowerCase (trim nm))
       (map (fun rp => lowerName (player rp)) (removedPlayers st)).
Proof.
  unfold findRemovedPlayer. rewrite trim_idempotent. intros H Hin.
  apply in_map_iff in Hin. destruct Hin as (rp & Hrp & Hin).
  pose proof (find_none _ _ H rp Hin) as Hn. simpl in Hn.
  apply String.eqb_neq in Hn. now apply Hn.
Qed.

Lemma tombstone_found nm st rp :
  findRemovedPlayer (trim nm) st = Some rp ->
  In rp (removedPlayers st) /\ lowerName (player rp) = toLowerCase (trim nm).
Proof.
  unfold findRemovedPlayer. rewrite trim_idempotent. intros H.
  apply find_some in H. destruct H as [Hin He]. split; [exact Hin|].
  now apply String.eqb_eq in He.
Qed.

Lemma filtered_tombstones_miss nm (l : list RemovedPlayer) :
  ~ In (toLowerCase nm)
       (map (fun rp => lowerName (player rp))
            (filter (fun rp => negb (sameLowerName (name (player rp)) nm)) l)).
Proof.
  intros Hin. apply in_map_iff in Hin. destruct Hin as (rp & Hrp & Hin).
  apply filter_In in Hin. destruct Hin as [_ Hf].
  apply negb_true_iff in Hf. unfold sameLowerName in Hf.
  apply String.eqb_neq in Hf. now apply Hf.
Qed.

Lemma lowerName_compactFrom l : forall n,
  map lowerName (compactFrom n l) = map lowerName l.
Proof.
  intros n. apply lowerName_identity, map_identity_compactFrom.
Qed.

(** Every operation keeps the names in use distinct, up to case. *)
Lemma perform_keeps_names_distinct o gs :
  NoDup (namesInUse (gameState gs)) ->
  NoDup (namesInUse (gameState (perform o gs))).
Proof.
  intros Hnd.
  destruct (changesRoster o) eqn:Hch.
  - destruct o; try discriminate; cbn [perform].
    + (* addPlayer *)
      unfold addPlayer.
      destruct (isPlayerNameTaken (trim nm) (gameState gs)) eqn:Htaken; [exact Hnd|].
      apply nameTaken_false in Htaken.
      unfold namesInUse in *.
      destruct (findRemovedPlayer (trim nm) (gameState gs)) as [rp|] eqn:Hfound;
        cbn [snd gameState withGameState players removedPlayers withPlayers withRounds
             withRemovedPlayers]; rewrite map_app; cbn [map].
      * apply tombstone_found in Hfound. destruct Hfound as [_ Hname].
        change (lowerName (mkPlayer _ _ _ _ _ _)) with (lowerName (player rp)).
        rewrite Hname.
        apply (NoDup_grow _ _ _ _ _ Hnd).
        -- apply incl_refl.
        -- apply incl_map_filter.
        -- now apply NoDup_app_remove_r in Hnd.
        -- apply NoDup_map_filter. now apply NoDup_app_remove_l in Hnd.
        -- exact Htaken.
        -- apply filtered_tombstones_miss.
      * apply tombstone_absent in Hfound.
        change (lowerName (mkPlayer _ _ _ _ _ _)) with (toLowerCase (trim nm)).
        apply (NoDup_grow _ _ _ _ _ Hnd).
        -- apply incl_refl.
        -- apply incl_refl.
        -- now apply NoDup_app_remove_r in Hnd.
        -- now apply NoDup_app_remove_l in Hnd.
        -- exact Htaken.
        -- exact Hfound.
    + (* removePlayer *)
      unfold removePlayer.
      destruct (find (fun p => (id p =? pid)%string) (players (gameState gs)))
        as [removed|] eqn:Hfind; [|exact Hnd].
      apply find_some in Hfind. destruct Hfind as [Hin Hid].
      apply String.eqb_eq in Hid.
      unfold namesInUse in *. cbn [gameState].
      rewrite checkGameOver_players, checkGameOver_removedPlayers.
      cbn [players removedPlayers withPlayers withRounds withRemovedPlayers].
      rewrite lowerName_compactFrom, map_app. cbn [map player].
      apply (NoDup_grow _ _ _ _ _ Hnd).
      * apply incl_map_filter.
      * apply incl_map_filter.
      * apply NoDup_map_filter. now apply NoDup_app_remove_r in Hnd.
      * apply NoDup_map_filter. now apply NoDup_app_remove_l in Hnd.
      * intros Hx. apply in_map_iff in Hx. destruct Hx as (q & Hq & Hqin).
        apply filter_In in Hqin. destruct Hqin as [Hqin Hne].
        apply negb_true_iff, String.eqb_neq in Hne. apply Hne.
        assert (q = removed).
        { apply (NoDup_map_injective lowerName (players (gameState gs)));
            try assumption. now apply NoDup_app_remove_r in Hnd. }
        now subst q.
      * apply filtered_tombstones_miss.
    + (* resetEverything *)
      constructor.
  - destruct (perform_keeps_roster o gs Hch) as [Hp Hr].
    unfold namesInUse. now rewrite (lowerName_identity _ _ Hp), Hr.
Qed.

(** X6. In every reachable state the names of the players and the names
    under which tombstones are kept are pairwise distinct, up to case: no
    two players bear one name, no two tombstones either, and no tombstone
    is kept under the name of a player in the game. *)
Theorem reachable_names_distinct :
  forall (gs : GameService),
    reachable gs ->
    NoDup (namesInUse (gameState gs))
    /\ NoDup (map lowerName (players (gameState gs)))
    /\ (forall p rp, In p (players (gameState gs)) ->
                     In rp (removedPlayers (gameState gs)) ->
                     lowerName p <> lowerName (player rp)).
Proof.
  intros gs [ops ->].
  assert (Hnd : NoDup (namesInUse (gameState (run ops initialService)))).
  { apply (run_invariant (fun s => NoDup (namesInUse (gameState s)))).
    - intros o s. apply perform_keeps_names_distinct.
    - constructor. }
  split; [exact Hnd|]. split.
  - now apply NoDup_app_remove_r in Hnd.
  - intros p rp Hp Hrp He. unfold namesInUse in Hnd.
    apply (NoDup_app_disjoint _ _ (lowerName p) Hnd).
    + now apply in_map.
    + rewrite He. now apply (in_map (fun r => lowerName (player r))).
Qed.

Lemma reachable_names_distinct_witness :
  reachable aliceAway
  /\ namesInUse (gameState aliceAway) = ["bob"; "carol"; "alice"]
  /\ NoDup (namesInUse (gameState aliceAway)).
Proof.
  assert (Hr : reachable aliceAway).
  { exists [OpInitializeGame 101 20;
            OpAddPlayer "Alice" "a"; OpAddPlayer "Bob" "b"; OpAddPlayer "Carol" "c";
            OpAddRound [mkRoundScore "a" 10; mkRoundScore "b" 20; mkRoundScore "c" 0] 1;
            OpAddRound [mkRoundScore "a" 1; mkRoundScore "b" 2; mkRoundScore "c" 0] 2;
            OpRemovePlayer "a";
            OpAddRound [mkRoundScore "b" 0; mkRoundScore "c" 7] 3].
    reflexivity. }
  split; [exact Hr|]. split; [reflexivity|].
  exact (proj1 (reachable_names_distinct aliceAway Hr)).
Defined.

Lemma id_compactFrom l : forall n, map id (compactFrom n l) = map id l.
Proof.
  intros n. apply id_identity, map_identity_compactFrom.
Qed.

(** An operation that brings no id in use keeps the ids in use distinct. *)
Lemma perform_keeps_ids_distinct o gs :
  NoDup (idsInUse (gameState gs)) ->
  bringsFreshId o (gameState gs) ->
  NoDup (idsInUse (gameState (perform o gs))).
Proof.
  intros Hnd Hfresh.
  destruct (changesRoster o) eqn:Hch.
  - destruct o; try discriminate; cbn [perform].
    + (* addPlayer *)
      unfold addPlayer.
      destruct (isPlayerNameTaken (trim nm) (gameState gs)) eqn:Htaken; [exact Hnd|].
      unfold idsInUse in *.
      destruct (findRemovedPlayer (trim nm) (gameState gs)) as [rp|] eqn:Hfound;
        cbn [snd gameState withGameState players removedPlayers withPlayers withRounds
             withRemovedPlayers]; rewrite map_app; cbn [map id].
      * apply tombstone_found in Hfound. destruct Hfound as [Hrp Hname].
        apply (NoDup_grow _ _ _ _ _ Hnd).
        -- apply incl_refl.
        -- apply incl_map_filter.
        -- now apply NoDup_app_remove_r in Hnd.
        -- apply NoDup_map_filter. now apply NoDup_app_remove_l in Hnd.
        -- intros Hin. apply (NoDup_app_disjoint _ _ _ Hnd Hin).
           now apply (in_map (fun r => id (player r))).
        -- intros Hin. apply in_map_iff in Hin. destruct Hin as (rp' & Hid' & Hin').
           apply filter_In in Hin'. destruct Hin' as [Hin' Hf].
           assert (rp' = rp).
           { apply (NoDup_map_injective (fun r => id (player r))
                                        (removedPlayers (gameState gs)));
               try assumption. now apply NoDup_app_remove_l in Hnd. }
           subst rp'. apply negb_true_iff in Hf. unfold sameLowerName in Hf.
           apply String.eqb_neq in Hf. now apply Hf.
      * cbn [bringsFreshId] in Hfresh.
        apply (NoDup_grow _ _ _ _ _ Hnd).
        -- apply incl_refl.
        -- apply incl_refl.
        -- now apply NoDup_app_remove_r in Hnd.
        -- now apply NoDup_app_remove_l in Hnd.
        -- intros Hin. apply Hfresh, in_or_app. now left.
        -- intros Hin. apply Hfresh, in_or_app. now right.
    + (* removePlayer *)
      unfold removePlayer.
      destruct (find (fun p => (id p =? pid)%string) (players (gameState gs)))
        as [removed|] eqn:Hfind; [|exact Hnd].
      apply find_some in Hfind. destruct Hfind as [Hin Hid].
      apply String.eqb_eq in Hid.
      unfold idsInUse in *. cbn [gameState].
      rewrite checkGameOver_players, checkGameOver_removedPlayers.
      cbn [players removedPlayers withPlayers withRounds withRemovedPlayers].
      rewrite id_compactFrom, map_app. cbn [map player].
      apply (NoDup_grow _ _ _ _ _ Hnd).
      * apply incl_map_filter.
      * apply incl_map_filter.
      * apply NoDup_map_filter. now apply NoDup_app_remove_r in Hnd.
      * apply NoDup_map_filter. now apply NoDup_app_remove_l in Hnd.
      * intros Hx. apply in_map_iff in Hx. destruct Hx as (q & Hq & Hqin).
        apply filter_In in Hqin. destruct Hqin as [_ Hne].
        apply negb_true_iff, String.eqb_neq in Hne. apply Hne. congruence.
      * intros Hx. apply incl_map_filter in Hx.
        apply (NoDup_app_disjoint _ _ (id removed) Hnd); [now apply in_map | exact Hx].
    + (* resetEverything *)
      constructor.
  - destruct (perform_keeps_roster o gs Hch) as [Hp Hr].
    unfold idsInUse. now rewrite (id_identity _ _ Hp), Hr.
Qed.

Lemma run_keeps_ids_distinct ops : forall gs,
  NoDup (idsInUse (gameState gs)) ->
  idsStayFresh ops gs ->
  NoDup (idsInUse (gameState (run ops gs))).
Proof.
  unfold run.
  induction ops as [|o ops IH]; intros gs Hids Hfresh; simpl; [exact Hids|].
  destruct Hfresh as [Ho Hrest].
  apply IH; [|exact Hrest].
  now apply perform_keeps_ids_distinct.
Qed.

(** X7. Along a run from the initial service in which [generateId] never
    returns an id in use (by a player in the game or by a tombstone), the
    ids in use stay pairwise distinct; in particular no two players share
    an id. *)
Theorem fresh_ids_stay_distinct :
  forall (ops : list Op),
    idsStayFresh ops initialService ->
    NoDup (idsInUse (gameState (run ops initialService)))
    /\ NoDup (map id (players (gameState (run ops initialService)))).
Proof.
  intros ops Hfresh.
  assert (Hnd : NoDup (idsInUse (gameState (run ops initialService)))).
  { apply run_keeps_ids_distinct; [constructor | exact Hfresh]. }
  split; [exact Hnd|]. now apply NoDup_app_remove_r in Hnd.
Qed.

Lemma fresh_ids_stay_distinct_witness :
  let ops := [OpInitializeGame 101 20;
              OpAddPlayer "Alice" "a"; OpAddPlayer "Bob" "b"; OpAddPlayer "Carol" "c";
              OpRemovePlayer "a"; OpAddPlayer "Dave" "d"; OpAddPlayer "alice" "e"] in
  idsStayFresh ops initialService
  /\ map id (players (gameState (run ops initialService))) = ["b"; "c"; "d"; "a"]
  /\ NoDup (map id (players (gameState (run ops initialService)))).
Proof.
  cbv zeta.
  assert (Hf : idsStayFresh
                 [OpInitializeGame 101 20;
                  OpAddPlayer "Alice" "a"; OpAddPlayer "Bob" "b"; OpAddPlayer "Carol" "c";
                  OpRemovePlayer "a"; OpAddPlayer "Dave" "d"; OpAddPlayer "alice" "e"]
                 initialService).
  { vm_compute. intuition discriminate. }
  split; [exact Hf|]. split; [reflexivity|].
  exact (proj2 (fresh_ids_stay_distinct _ Hf)).
Defined.

(* ===================================================================== *)
(** ** Setting and advancing the rotation *)
(* ===================================================================== *)

Lemma findIndex_find {A} (f : A -> bool) l :
  match findIndex f l with
  | Some i => i < length l /\ nth_error l i = find f l /\ find f l <> None
  | None => find f l = None
  end.
Proof.
  induction l as [|x l IH]; simpl; [reflexivity|].
  destruct (f x) eqn:Hx.
  - repeat split; [lia | discriminate].
  - destruct (findIndex f l) as [i|]; [|exact IH].
    destruct IH as (Hi & Hn & Hs). repeat split; [lia | exact Hn | exact Hs].
Qed.

Lemma setOpenCardPlayer_active pid st :
  activePlayers (setOpenCardPlayer pid st) = activePlayers st.
Proof.
  apply activePlayers_players. unfold setOpenCardPlayer.
  now destruct (findIndex _ _).
Qed.

Lemma setDealer_active pid st :
  activePlayers (setDealer pid st) = activePlayers st.
Proof.
  apply activePlayers_players. unfold setDealer.
  now destruct (findIndex _ _).
Qed.

(** X8. Setting the rotation by hand. If an active player bears the id,
    [setOpenCardPlayer] gives that player (the first such in seating
    order) the open card, and with two or more active players [setDealer]
    makes that player the dealer; if no active player bears the id, both
    leave the state as it is. *)
Theorem set_rotation_then_read :
  forall (st : GameState) (pid : string),
    match find (fun p => (id p =? pid)%string) (activePlayers st) with
    | Some p =>
        currentOpenCardPlayer (setOpenCardPlayer pid st) = Some p
        /\ (2 <= length (activePlayers st) ->
            currentDealer (setDealer pid st) = Some p)
    | None => setOpenCardPlayer pid st = st /\ setDealer pid st = st
    end.
Proof.
  intros st pid.
  pose proof (findIndex_find (fun p => (id p =? pid)%string) (activePlayers st)) as Hfi.
  destruct (findIndex (fun p => (id p =? pid)%string) (activePlayers st)) as [i|] eqn:Hi.
  - destruct Hfi as (Hlt & Hnth & Hsome).
    destruct (find (fun p => (id p =? pid)%string) (activePlayers st)) as [p|] eqn:Hf;
      [|contradiction].
    split.
    + rewrite currentOpenCardPlayer_in_range;
        rewrite setOpenCardPlayer_active; unfold setOpenCardPlayer; rewrite Hi;
        cbn [currentOpenCardPlayerIndex withOpenCardIndex]; assumption.
    + intros Hn.
      assert (Hidx : currentOpenCardPlayerIndex (setDealer pid st)
                     = (i + 1) mod length (activePlayers st)).
      { unfold setDealer. now rewrite Hi. }
      rewrite currentDealer_in_range; rewrite setDealer_active, ?Hidx.
      * now rewrite seatBefore_next.
      * exact Hn.
      * apply Nat.mod_upper_bound. lia.
  - rewrite Hfi. unfold setOpenCardPlayer, setDealer. rewrite Hi. split; reflexivity.
Qed.

Lemma set_rotation_then_read_witness :
  let st := gameState fourSeated in
  (2 <= length (activePlayers st)
   /\ option_map id (currentDealer (setDealer "d" st)) = Some "d"
   /\ option_map id (currentOpenCardPlayer (setDealer "d" st)) = Some "a"
   /\ option_map id (currentOpenCardPlayer (setOpenCardPlayer "c" st)) = Some "c")
  /\ setDealer "z" st = st.
Proof.
  cbv zeta.
  pose proof (set_rotation_then_read (gameState fourSeated) "d") as Hd.
  pose proof (set_rotation_then_read (gameState fourSeated) "z") as Hz.
  assert (H2 : 2 <= length (activePlayers (gameState fourSeated))) by (vm_compute; lia).
  change (find (fun p => (id p =? "d")%string) (activePlayers (gameState fourSeated)))
    with (Some (mkPlayer "d" "Dave" false 3 None 0)) in Hd.
  change (find (fun p => (id p =? "z")%string) (activePlayers (gameState fourSeated)))
    with (@None Player) in Hz.
  cbv iota in Hd, Hz. destruct Hd as [_ Hd]. destruct Hz as [_ Hz].
  split; [|exact Hz].
  split; [exact H2|]. split; [now rewrite (Hd H2)|]. split; reflexivity.
Defined.

Lemma advanceTimes_small k : forall st,
  length (activePlayers st) < 2 -> advanceTimes k st = st.
Proof.
  induction k as [|k IH]; intros st Hn; simpl; [reflexivity|].
  assert (Ha : advanceOpenCard st = st).
  { unfold advanceOpenCard.
    destruct (Nat.ltb_spec (length (activePlayers st)) 2); [reflexivity | lia]. }
  rewrite Ha. now apply IH.
Qed.

Lemma advanceTimes_active k : forall st,
  activePlayers (advanceTimes k st) = activePlayers st.
Proof.
  induction k as [|k IH]; intros st; simpl; [reflexivity|].
  now rewrite IH, advanceOpenCard_active.
Qed.

Lemma advanceTimes_index k : forall st,
  2 <= length (activePlayers st) ->
  currentOpenCardPlayerIndex (advanceTimes (S k) st)
  = (currentOpenCardPlayerIndex st + S k) mod length (activePlayers st).
Proof.
  induction k as [|k IH]; intros st Hn.
  - simpl. now apply advanceOpenCard_index.
  - change (advanceTimes (S (S k)) st) with (advanceTimes (S k) (advanceOpenCard st)).
    rewrite IH; rewrite advanceOpenCard_active; [|exact Hn].
    rewrite advanceOpenCard_index by exact Hn.
    rewrite Nat.Div0.add_mod_idemp_l. f_equal. lia.
Qed.

(** X9. The rotation goes round. With two or more active players, [k]
    advances (k > 0) put the rotation index at (index + k) modulo the
    number of active players, which is inside the active sequence even
    when the index was not, and as many advances as there are active
    players bring an index that was inside back to where it was; with
    fewer than two active players advancing changes nothing. *)
Theorem advanceOpenCard_goes_round :
  forall (st : GameState) (k : nat),
    let n := length (activePlayers st) in
    let i := currentOpenCardPlayerIndex st in
    (n < 2 -> advanceTimes k st = st)
    /\ (2 <= n ->
        currentOpenCardPlayerIndex (advanceTimes (S k) st) = (i + S k) mod n
        /\ currentOpenCardPlayerIndex (advanceTimes (S k) st) < n
        /\ (i < n -> currentOpenCardPlayerIndex (advanceTimes n st) = i)).
Proof.
  intros st k n i. subst n i. split; [apply advanceTimes_small|].
  intros Hn. split; [now apply advanceTimes_index|]. split.
  - rewrite advanceTimes_index by exact Hn. apply Nat.mod_upper_bound. lia.
  - intros Hi.
    destruct (length (activePlayers st)) as [|m] eqn:Hlen; [lia|].
    rewrite advanceTimes_index by lia. rewrite Hlen.
    rewrite <- Nat.Div0.add_mod_idemp_r, Nat.Div0.mod_same, Nat.add_0_r.
    apply Nat.mod_small. lia.
Qed.

Lemma advanceOpenCard_goes_round_witness :
  let st := gameState fourPlayers in
  (2 <= length (activePlayers st)
   /\ currentOpenCardPlayerIndex st = 2
   /\ currentOpenCardPlayerIndex (advanceTimes 3 st) = (2 + 3) mod 4
   /\ currentOpenCardPlayerIndex (advanceTimes 4 st) = 2)
  /\ (length (activePlayers DEFAULT_GAME_STATE) < 2
      /\ advanceTimes 3 DEFAULT_GAME_STATE = DEFAULT_GAME_STATE).
Proof.
  cbv zeta.
  pose proof (advanceOpenCard_goes_round (gameState fourPlayers) 2) as H.
  pose proof (advanceOpenCard_goes_round DEFAULT_GAME_STATE 3) as H0.
  cbv zeta in H, H0. destruct H as [_ H]. destruct H0 as [H0 _].
  assert (H2 : 2 <= length (activePlayers (gameState fourPlayers))) by (vm_compute; lia).
  assert (Hs : length (activePlayers DEFAULT_GAME_STATE) < 2) by (vm_compute; lia).
  destruct (H H2) as (Hk & _ & Hround).
  split.
  - split; [exact H2|]. split; [reflexivity|]. split; [exact Hk|].
    apply Hround. vm_compute. lia.
  - split; [exact Hs | exact (H0 Hs)].
Defined.

(** X10. Every recorded round leaves a usable rotation: if two or more
    players are active once [addRound] is done, the rotation index is
    inside the active sequence, whatever it was before, so that there is
    a dealer and the open-card player is the active player at the index. *)
Theorem addRound_leaves_rotation_in_range :
  forall (gs : GameService) (submitted : list RoundScore) (now : Z),
    let after := gameState (addRound submitted now gs) in
    2 <= length (activePlayers after) ->
    currentOpenCardPlayerIndex after < length (activePlayers after)
    /\ currentDealer after <> None
    /\ currentOpenCardPlayer after
       = nth_error (activePlayers after) (currentOpenCardPlayerIndex after).
Proof.
  intros gs submitted now after Hn.
  assert (Hin : currentOpenCardPlayerIndex after < length (activePlayers after)).
  { subst after. revert Hn. unfold addRound.
    destruct (checkPlayersOut _) as [out checked].
    cbn [gameState]. rewrite advanceOpenCard_active. intros Hn.
    rewrite advanceOpenCard_index by exact Hn.
    apply Nat.mod_upper_bound. lia. }
  split; [exact Hin|]. split.
  - rewrite currentDealer_in_range by assumption.
    apply nth_error_Some. unfold seatBefore.
    destruct (currentOpenCardPlayerIndex after =? 0); lia.
  - now apply currentOpenCardPlayer_in_range.
Qed.

Lemma addRound_leaves_rotation_in_range_witness :
  let after :=
    gameState (addRound [mkRoundScore "a" 0; mkRoundScore "b" 5; mkRoundScore "c" 9] 1
                        daveRemoved) in
  currentOpenCardPlayerIndex (gameState daveRemoved) = 3
  /\ currentDealer (gameState daveRemoved) = None
  /\ 2 <= length (activePlayers after)
  /\ currentOpenCardPlayerIndex after < length (activePlayers after)
  /\ currentDealer after <> None.
Proof.
  cbv zeta.
  assert (H2 : 2 <= length (activePlayers
                 (gameState (addRound [mkRoundScore "a" 0; mkRoundScore "b" 5;
                                       mkRoundScore "c" 9] 1 daveRemoved))))
    by (vm_compute; lia).
  pose proof (addRound_leaves_rotation_in_range daveRemoved
                [mkRoundScore "a" 0; mkRoundScore "b" 5; mkRoundScore "c" 9] 1%Z) as H.
  cbv zeta in H. destruct (H H2) as (Hi & Hd & _).
  split; [reflexivity|]. split; [reflexivity|]. split; [exact H2|].
  split; [exact Hi | exact Hd].
Defined.

(* ===================================================================== *)
(** ** A new game, a removal, the highest active total *)
(* ===================================================================== *)

Lemma newGame_columns l : forall i,
  map columnOrder
      (filter notOut (mapiFrom i (fun order p => withColumnOrder order (withIsOut false p)) l))
  = seq i (length l).
Proof.
  induction l as [|p l IH]; intros i; simpl; [reflexivity|].
  unfold notOut at 1. simpl. now rewrite IH.
Qed.

Lemma newGame_all_active l : forall i,
  Forall (fun p => isOut p = false)
         (mapiFrom i (fun order p => withColumnOrder order (withIsOut false p)) l).
Proof.
  induction l as [|p l IH]; intros i; simpl; constructor; [reflexivity | apply IH].
Qed.

Lemma newGame_rejoinCount l : forall i,
  map rejoinCount
      (mapiFrom i (fun order p => withColumnOrder order (withIsOut false p)) l)
  = map rejoinCount l.
Proof.
  induction l as [|p l IH]; intros i; simpl; [reflexivity | now rewrite IH].
Qed.

Lemma totalFor_nil_total st q : rounds st = [] -> calculatePlayerTotal st q = 0%Z.
Proof.
  intros H. rewrite calculatePlayerTotal_totalFor, H. reflexivity.
Qed.

(** X11. [newGame] starts over with the same people: no round is left and
    every total is 0; every player is active and the seats are 0..N-1 in
    the order of the player list; ids, names and rejoin counts of the
    players, the tombstones and the settings are kept; the game is not
    over, nobody may rejoin and the rotation index is 0. *)
Theorem newGame_starts_over :
  forall (gs : GameService),
    let before := gameState gs in
    let after := gameState (newGame gs) in
    rounds after = []
    /\ (forall q, calculatePlayerTotal after q = 0%Z)
    /\ Forall (fun p => isOut p = false) (players after)
    /\ activeColumns after = seq 0 (length (players before))
    /\ map identity (players after) = map identity (players before)
    /\ map rejoinCount (players after) = map rejoinCount (players before)
    /\ removedPlayers after = removedPlayers before
    /\ settings after = settings before
    /\ isGameOver after = false
    /\ gameWinnerId after = None
    /\ currentOpenCardPlayerIndex after = 0
    /\ playersEligibleForRejoin (newGame gs) = [].
Proof.
  intros gs before after. subst before after. unfold newGame.
  cbn [gameState playersEligibleForRejoin].
  repeat split.
  - unfold activeColumns. simpl. apply newGame_all_active.
  - unfold activeColumns. simpl. apply newGame_columns.
  - simpl. unfold mapi. now apply map_identity_mapiFrom.
  - simpl. apply newGame_rejoinCount.
Qed.




Lemma highest_fold st exclude l : forall acc,
  let step := fun highest p =>
    let excluded := match exclude with
                    | Some e => (id p =? e)%string
                    | None => false
                    end in
    if negb (isOut p) && negb excluded then
      let total := calculatePlayerTotal st (id p) in
      if (total >? highest)%Z then total else highest
    else highest in
  let counted := fun p =>
    negb (isOut p) && negb match exclude with
                           | Some e => (id p =? e)%string
                           | None => false
                           end in
  let h := fold_left step l acc in
  (acc <= h)%Z
  /\ (forall p, In p l -> counted p = true -> (calculatePlayerTotal st (id p) <= h)%Z)
  /\ (h = acc \/ exists p, In p l /\ counted p = true /\ calculatePlayerTotal st (id p) = h).
Proof.
  cbv zeta.
  induction l as [|q l IH]; intros acc; simpl.
  - split; [lia|]. split; [intros p []|]. now left.
  - match goal with
    | |- context [fold_left ?f l ?a] => specialize (IH a); set (h := fold_left f l a) in *
    end.
    destruct IH as (Hge & Hall & Hex).
    destruct (negb (isOut q) && negb _) eqn:Hc.
    + destruct (Z.gtb_spec (calculatePlayerTotal st (id q)) acc) as [Hgt|Hle].
      * split; [lia|]. split.
        -- intros p [<-|Hp] Hcp; [lia | now apply Hall].
        -- right. destruct Hex as [Hh|(p & Hp & Hcp & Hh)].
           ++ exists q. split; [now left|]. split; [exact Hc | now rewrite Hh].
           ++ exists p. split; [now right|]. split; assumption.
      * split; [lia|]. split.
        -- intros p [<-|Hp] Hcp; [lia | now apply Hall].
        -- destruct Hex as [Hh|(p & Hp & Hcp & Hh)]; [now left|].
           right. exists p. split; [now right|]. split; assumption.
    + split; [exact Hge|]. split.
      * intros p [<-|Hp] Hcp; [congruence | now apply Hall].
      * destruct Hex as [Hh|(p & Hp & Hcp & Hh)]; [now left|].
        right. exists p. split; [now right|]. split; assumption.
Qed.

Lemma getHighestActiveScore_is_greatest_aux st :
  (0 <= getHighestActiveScore None st)%Z
  /\ (forall p, In p (players st) -> isOut p = false ->
                (calculatePlayerTotal st (id p) <= getHighestActiveScore None st)%Z).
Proof.
  unfold getHighestActiveScore.
  pose proof (highest_fold st None (players st) 0%Z) as H. cbv zeta in H.
  destruct H as (Hge & Hall & _). split; [exact Hge|].
  intros p Hp Hout. apply Hall; [exact Hp|]. now rewrite Hout.
Qed.

(** X13. [getHighestActiveScore] is the greatest of 0 and the totals of
    the active players other than the excluded one: it is not negative,
    no such player has a greater total, and it is 0 or the total of such
    a player. *)
Theorem getHighestActiveScore_is_greatest :
  forall (st : GameState) (exclude : option string),
    let counted := fun p =>
      negb (isOut p) && negb match exclude with
                             | Some e => (id p =? e)%string
                             | None => false
                             end in
    let h := getHighestActiveScore exclude st in
    (0 <= h)%Z
    /\ (forall p, In p (players st) -> counted p = true ->
                  (calculatePlayerTotal st (id p) <= h)%Z)
    /\ (h = 0%Z
        \/ exists p, In p (players st) /\ counted p = true
                     /\ calculatePlayerTotal st (id p) = h).
Proof.
  intros st exclude. cbv zeta. unfold getHighestActiveScore.
  exact (highest_fold st exclude (players st) 0%Z).
Qed.

(* ===================================================================== *)
(** ** Adding a player, the end of the game *)
(* ===================================================================== *)

Lemma isPlayerNameTaken_spec nm st :
  isPlayerNameTaken nm st = true
  <-> exists p, In p (players st) /\ toLowerCase (name p) = toLowerCase (trim nm).
Proof.
  unfold isPlayerNameTaken. rewrite existsb_exists. split.
  - intros (p & Hp & He). exists p. split; [exact Hp | now apply String.eqb_eq].
  - intros (p & Hp & He). exists p. split; [exact Hp | now apply String.eqb_eq].
Qed.



Lemma checkGameOver_latch st :
  isGameOver st = true -> isGameOver (checkGameOver st) = true.
Proof.
  intros H. unfold checkGameOver.
  destruct (activePlayers st) as [|w [|w' r]]; simpl; auto.
Qed.

(** X15. The game-over flag is a latch: once it is set, only
    [rejoinPlayer], [newGame] and [resetEverything] can clear it; every
    other operation, the deletion of a round and the edit of a score
    included, leaves it set. *)
Theorem game_over_only_cleared_by_rejoin_or_restart :
  forall (o : Op) (gs : GameService),
    mayReopenGame o = false ->
    isGameOver (gameState gs) = true ->
    isGameOver (gameState (perform o gs)) = true.
Proof.
  intros o gs Ho Hover. destruct o; try discriminate; cbn [perform]; try exact Hover.
  - unfold addPlayer.
    destruct (isPlayerNameTaken _ _); [exact Hover|].
    destruct (findRemovedPlayer _ _); exact Hover.
  - unfold addJoinScoreForNewPlayer.
    destruct (find _ _); [|exact Hover].
    destruct (length _ =? 0); exact Hover.
  - unfold removePlayer.
    destruct (find _ _); [|exact Hover].
    cbn [gameState]. now apply checkGameOver_latch.
  - unfold addRound.
    match goal with
    | |- context [checkPlayersOut ?s] =>
        pose proof (checkPlayersOut_gameOver s) as Hg;
        destruct (checkPlayersOut s) as [out checked]
    end.
    cbn [fst snd gameState] in *. rewrite advanceOpenCard_gameOver, Hg.
    cbn [isGameOver withRounds]. now rewrite Hover.
  - unfold updateScore. cbn [gameState withGameState].
    rewrite checkPlayersOut_gameOver. cbn [isGameOver withRounds]. now rewrite Hover.
  - now apply deleteRound_keeps_game_over.
  - cbn [gameState withGameState]. now rewrite advanceOpenCard_gameOver.
  - cbn [gameState withGameState]. unfold setOpenCardPlayer.
    now destruct (findIndex _ _).
  - cbn [gameState withGameState]. unfold setDealer.
    now destruct (findIndex _ _).
Qed.

Lemma game_over_only_cleared_by_rejoin_or_restart_witness :
  isGameOver (gameState bobOut) = true
  /\ isGameOver (gameState (perform (OpUpdateScore 2 "b" 1) bobOut)) = true
  /\ isGameOver (gameState (perform (OpDeleteRound 2) bobOut)) = true
  /\ isGameOver (gameState (perform OpNewGame bobOut)) = false.
Proof.
  split; [reflexivity|]. split; [|split; [|reflexivity]].
  - exact (game_over_only_cleared_by_rejoin_or_restart
             (OpUpdateScore 2 "b" 1) bobOut eq_refl eq_refl).
  - exact (game_over_only_cleared_by_rejoin_or_restart
             (OpDeleteRound 2) bobOut eq_refl eq_refl).
Defined.

Lemma advanceOpenCard_winner st : gameWinnerId (advanceOpenCard st) = gameWinnerId st.
Proof.
  unfold advanceOpenCard. now destruct (length (activePlayers st) <? 2).
Qed.

Lemma find_by_id_unique l w :
  NoDup (map id l) -> In w l -> find (fun p => (id p =? id w)%string) l = Some w.
Proof.
  intros Hnd Hin.
  destruct (find (fun p => (id p =? id w)%string) l) as [x|] eqn:Hf.
  - apply find_some in Hf. destruct Hf as [Hx He]. apply String.eqb_eq in He.
    f_equal. now apply (NoDup_map_injective id l).
  - pose proof (find_none _ _ Hf w Hin) as Hn. simpl in Hn.
    now rewrite String.eqb_refl in Hn.
Qed.

Lemma activePlayers_In st p :
  In p (activePlayers st) <-> In p (players st) /\ isOut p = false.
Proof.
  pose proof (proj2 (activePlayers_sorted st)) as Hperm.
  split.
  - intros Hin. apply (Permutation_in _ (Permutation_sym Hperm)) in Hin.
    apply filter_In in Hin. destruct Hin as [Hin Hn].
    split; [exact Hin|]. unfold notOut in Hn. now apply negb_true_iff in Hn.
  - intros [Hin Hn]. apply (Permutation_in _ Hperm).
    apply filter_In. split; [exact Hin|]. unfold notOut. now rewrite Hn.
Qed.

(** X16. The round that leaves one player standing ends the game: when
    [addRound] puts somebody out and exactly one player is active
    afterwards, the game is over and that player is the winner; with
    distinct player ids and a non-empty id, [getGameWinner] then gives
    the winner's name.  When the round puts nobody out, the game-over
    flag and the winner are what they were. *)
Theorem addRound_ends_game_with_last_player :
  forall (gs : GameService) (submitted : list RoundScore) (now : Z),
    let before := gameState gs in
    let after := gameState (addRound submitted now gs) in
    (forall w,
        playersEligibleForRejoin (addRound submitted now gs) <> [] ->
        activePlayers after = [w] ->
        isGameOver after = true
        /\ gameWinnerId after = Some (id w)
        /\ (NoDup (map id (players before)) -> id w <> "" ->
            getGameWinner (addRound submitted now gs) = Some (name w)))
    /\ (playersEligibleForRejoin (addRound submitted now gs) = [] ->
        isGameOver after = isGameOver before
        /\ gameWinnerId after = gameWinnerId before).
Proof.
  intros gs submitted now before after. subst before after.
  pose proof (addRound_players submitted now gs) as Hplayers.
  pose proof (activePlayers_In (gameState (addRound submitted now gs))) as Hact.
  revert Hplayers Hact. unfold addRound, checkPlayersOut.
  match goal with
  | |- context [map id (filter (goesOut ?s) (players ?s))] => set (appended := s)
  end.
  destruct (map id (filter (goesOut appended) (players appended))) as [|o out] eqn:Hout;
    cbn [fst snd gameState playersEligibleForRejoin withEligible length Nat.ltb Nat.leb];
    intros Hplayers Hact; split.
  - intros w Hne. exfalso. now apply Hne.
  - intros _. rewrite advanceOpenCard_gameOver, advanceOpenCard_winner. split; reflexivity.
  - intros w _ Hw. rewrite advanceOpenCard_active in Hw.
    rewrite advanceOpenCard_gameOver, advanceOpenCard_winner.
    match type of Hw with
    | activePlayers (checkGameOver ?s) = _ =>
        rewrite (activePlayers_players (checkGameOver s) s (checkGameOver_players s)) in Hw;
        assert (Hover : isGameOver (checkGameOver s) = true
                        /\ gameWinnerId (checkGameOver s) = Some (id w))
          by (unfold checkGameOver; rewrite Hw; split; reflexivity)
    end.
    destruct Hover as [Hover Hwin]. split; [exact Hover|]. split; [exact Hwin|].
    intros Hnd Hid. unfold getGameWinner. cbn [gameState].
    rewrite advanceOpenCard_winner, Hwin.
    destruct (String.eqb_spec (id w) ""); [contradiction|].
    assert (Hin : In w (players (advanceOpenCard
                     (checkGameOver (withPlayers
                        (map (fun p => if isOut p then p
                                       else if (calculatePlayerTotal appended (id p)
                                                >? maxPoints (settings appended))%Z
                                            then markOut p else p)
                             (players appended)) appended))))).
    { apply Hact. rewrite advanceOpenCard_active.
      match goal with
      | |- In w (activePlayers (checkGameOver ?s)) =>
          rewrite (activePlayers_players (checkGameOver s) s (checkGameOver_players s))
      end.
      rewrite Hw. now left. }
    rewrite find_by_id_unique; [reflexivity | | exact Hin].
    rewrite Hplayers, map_map.
    erewrite map_ext; [exact Hnd|]. intros p. now destruct (goesOut _ p).
  - intros Hcontra. discriminate.
Qed.

Lemma addRound_ends_game_with_last_player_witness :
  let round2 := [mkRoundScore "a" 0; mkRoundScore "b" 60] in
  let before :=
    run [OpInitializeGame 101 20; OpAddPlayer "Alice" "a"; OpAddPlayer "Bob" "b";
         OpAddRound [mkRoundScore "a" 0; mkRoundScore "b" 50] 1] initialService in
  isGameOver (gameState before) = false
  /\ playersEligibleForRejoin (addRound round2 2 before) <> []
  /\ isGameOver (gameState (addRound round2 2 before)) = true
  /\ gameWinnerId (gameState (addRound round2 2 before)) = Some "a"
  /\ getGameWinner (addRound round2 2 before) = Some "Alice".
Proof.
  cbv zeta.
  set (before := run [OpInitializeGame 101 20; OpAddPlayer "Alice" "a";
                      OpAddPlayer "Bob" "b";
                      OpAddRound [mkRoundScore "a" 0; mkRoundScore "b" 50] 1]
                     initialService).
  pose proof (addRound_ends_game_with_last_player before
                [mkRoundScore "a" 0; mkRoundScore "b" 60] 2%Z) as H.
  cbv zeta in H. destruct H as [H _].
  assert (Hne : playersEligibleForRejoin
                  (addRound [mkRoundScore "a" 0; mkRoundScore "b" 60] 2 before) <> [])
    by (vm_compute; discriminate).
  assert (Hnd : NoDup (map id (players (gameState before)))).
  { vm_compute. repeat constructor; simpl; intuition discriminate. }
  destruct (H (mkPlayer "a" "Alice" false 0 None 0) Hne eq_refl) as (Ho & Hw & Hg).
  split; [reflexivity|]. split; [exact Hne|]. split; [exact Ho|]. split; [exact Hw|].
  apply Hg; [exact Hnd | discriminate].
Defined.

(* ===================================================================== *)
(** ** The seating order after a reorder, the return of a player *)
(* ===================================================================== *)

Lemma sorted_perm_seq n : forall a l,
  Sorted le l -> Permutation l (seq a n) -> l = seq a n.
Proof.
  induction n as [|n IH]; intros a l Hs Hp; simpl in *.
  - apply Permutation_sym, Permutation_nil in Hp. exact Hp.
  - destruct l as [|h t].
    + apply Permutation_nil in Hp. discriminate.
    + assert (Hss : StronglySorted le (h :: t)).
      { apply Sorted_StronglySorted; [|exact Hs]. intros x y z. apply Nat.le_trans. }
      apply StronglySorted_inv in Hss. destruct Hss as [_ Hall].
      assert (Hha : h <= a).
      { assert (Hin : In a (h :: t))
          by (apply (Permutation_in _ (Permutation_sym Hp)); now left).
        destruct Hin as [->|Hin]; [lia|].
        rewrite Forall_forall in Hall. now apply Hall. }
      assert (Hah : a <= h).
      { assert (Hin : In h (a :: seq (S a) n))
          by (apply (Permutation_in _ Hp); now left).
        destruct Hin as [->|Hin]; [lia|]. apply in_seq in Hin. lia. }
      assert (h = a) by lia. subst h. f_equal.
      apply IH; [now inversion Hs | now apply Permutation_cons_inv in Hp].
Qed.

Lemma sorted_columns l :
  Sorted byColumnOrder l -> Sorted le (map columnOrder l).
Proof.
  induction 1 as [|p l Hs IH Hhd]; simpl; constructor; [exact IH|].
  destruct Hhd; simpl; constructor. assumption.
Qed.

Lemma indexOf_nth x l : forall k, indexOf x l = Some k -> nth_error l k = Some x.
Proof.
  unfold indexOf. induction l as [|y l IH]; intros k; simpl; [discriminate|].
  destruct (String.eqb_spec x y) as [->|Hne].
  - intros [= <-]. reflexivity.
  - destruct (findIndex (String.eqb x) l) as [i|]; [|discriminate].
    intros [= <-]. simpl. now apply IH.
Qed.

Lemma nth_error_seq_in a n k : k < n -> nth_error (seq a n) k = Some (a + k).
Proof.
  intros Hk. rewrite (nth_error_nth' _ 0) by (rewrite length_seq; lia).
  now rewrite seq_nth.
Qed.

(** X17. [reorderPlayers] seats the active players in the order given:
    player ids being distinct, when the list names each active player
    once and nobody else, the active players read in seating order
    afterwards are the players of the list, in the order of the list. *)
Theorem reorderPlayers_sets_seating_order :
  forall (gs : GameService) (playerIds : list string),
    NoDup (map id (players (gameState gs))) ->
    Permutation playerIds (map id (filter notOut (players (gameState gs)))) ->
    map id (activePlayers (gameState (reorderPlayers playerIds gs))) = playerIds.
Proof.
  intros gs playerIds Hnd Hperm.
  set (after := gameState (reorderPlayers playerIds gs)).
  pose proof (reorderPlayers_dense playerIds gs Hnd Hperm) as Hdense.
  fold after in Hdense. unfold denseActive in Hdense.
  pose proof (activePlayers_sorted after) as [Hsorted Hact].
  assert (Hlen : length (activePlayers after) = length playerIds).
  { rewrite <- (Permutation_length Hact), (Permutation_length Hperm), length_map.
    unfold after, reorderPlayers. cbn [gameState withGameState players withPlayers].
    rewrite filter_map_preserved
      by (intros p; now destruct (indexOf (id p) playerIds)).
    now rewrite length_map. }
  assert (Hcols : map columnOrder (activePlayers after) = seq 0 (length playerIds)).
  { rewrite <- Hlen, <- (length_map columnOrder).
    apply sorted_perm_seq; [now apply sorted_columns|].
    rewrite length_map, <- (Permutation_length Hact), <- (length_map columnOrder).
    eapply perm_trans; [|exact Hdense].
    apply Permutation_map, Permutation_sym, Hact. }
  assert (Hseat : forall p, In p (activePlayers after) ->
                            indexOf (id p) playerIds = Some (columnOrder p)).
  { intros p Hp. apply (Permutation_in _ (Permutation_sym Hact)) in Hp.
    unfold after, reorderPlayers in Hp.
    cbn [gameState withGameState players withPlayers] in Hp.
    rewrite filter_map_preserved in Hp
      by (intros q; now destruct (indexOf (id q) playerIds)).
    apply in_map_iff in Hp. destruct Hp as (q & <- & Hq).
    assert (Hin : In (id q) playerIds).
    { apply (Permutation_in _ (Permutation_sym Hperm)). now apply in_map. }
    destruct (indexOf_found _ _ Hin) as (i & Hi). rewrite Hi. simpl. exact Hi. }
  apply nth_error_ext. intros k.
  rewrite nth_error_map.
  destruct (nth_error (activePlayers after) k) as [p|] eqn:Hk; simpl.
  - assert (Hkl : k < length playerIds).
    { rewrite <- Hlen. apply nth_error_Some. congruence. }
    assert (Hc : columnOrder p = k).
    { pose proof (nth_error_map columnOrder k (activePlayers after)) as Hm.
      rewrite Hk, Hcols, nth_error_seq_in in Hm by exact Hkl. simpl in Hm. congruence. }
    symmetry. apply indexOf_nth. rewrite <- Hc. apply Hseat.
    eapply nth_error_In. exact Hk.
  - symmetry. apply nth_error_None. rewrite <- Hlen. now apply nth_error_None.
Qed.

Lemma reorderPlayers_sets_seating_order_witness :
  NoDup (map id (players (gameState threePlayers)))
  /\ Permutation ["c"; "a"; "b"]
                 (map id (filter notOut (players (gameState threePlayers))))
  /\ map id (activePlayers (gameState threePlayers)) = ["a"; "b"; "c"]
  /\ map id (activePlayers (gameState (reorderPlayers ["c"; "a"; "b"] threePlayers)))
     = ["c"; "a"; "b"].
Proof.
  assert (H3 : NoDup (map id (players (gameState threePlayers)))).
  { vm_compute. repeat constructor; simpl; intuition discriminate. }
  assert (Hp : Permutation ["c"; "a"; "b"]
                 (map id (filter notOut (players (gameState threePlayers))))).
  { change (Permutation ("c" :: ["a"; "b"]) (["a"; "b"] ++ ["c"])).
    apply Permutation_cons_append. }
  split; [exact H3|]. split; [exact Hp|]. split; [reflexivity|].
  exact (reorderPlayers_sets_seating_order threePlayers ["c"; "a"; "b"] H3 Hp).
Defined.

Lemma open_card_goes_to st pid p :
  NoDup (map id (players st)) ->
  In p (players st) -> isOut p = false -> id p = pid ->
  currentOpenCardPlayerIndex st
  = maxZeroIndex (findIndex (fun q => (id q =? pid)%string) (activePlayers st)) ->
  currentOpenCardPlayer st = Some p.
Proof.
  intros Hnd Hin Hact Hid Hidx.
  assert (Hp : In p (activePlayers st)) by (apply activePlayers_In; auto).
  pose proof (findIndex_find (fun q => (id q =? pid)%string) (activePlayers st)) as Hfi.
  assert (Hfind : find (fun q => (id q =? pid)%string) (activePlayers st) = Some p).
  { destruct (find (fun q => (id q =? pid)%string) (activePlayers st)) as [x|] eqn:Hf.
    - apply find_some in Hf. destruct Hf as [Hx He]. apply String.eqb_eq in He.
      f_equal. apply (NoDup_map_injective id (players st)); try assumption.
      + now apply activePlayers_In in Hx.
      + congruence.
    - pose proof (find_none _ _ Hf p Hp) as Hn. simpl in Hn.
      rewrite Hid, String.eqb_refl in Hn. discriminate. }
  destruct (findIndex (fun q => (id q =? pid)%string) (activePlayers st)) as [i|].
  - destruct Hfi as (Hlt & Hnth & _). simpl in Hidx.
    rewrite currentOpenCardPlayer_in_range; rewrite Hidx; [|exact Hlt].
    now rewrite Hnth.
  - congruence.
Qed.

(** X18. [rejoinPlayer] brings back an eliminated, eligible player and
    does nothing otherwise.  When no player bears the id, or the player
    is not out, or is not in the eligible set, the service is unchanged.
    Otherwise the player is active again at the saved seat with one more
    rejoin counted, is no longer eligible, the game is not over and has
    no winner, and, player ids being distinct, the player holds the open
    card. *)
Theorem rejoinPlayer_brings_back_or_does_nothing :
  forall (gs : GameService) (pid : string),
    let after := gameState (rejoinPlayer pid gs) in
    match find (fun p => (id p =? pid)%string) (players (gameState gs)) with
    | None => rejoinPlayer pid gs = gs
    | Some p =>
        if isOut p && includes pid (playersEligibleForRejoin gs) then
          let back := reinstate (seatToRejoin p) p in
          In back (players after)
          /\ isOut back = false
          /\ columnOrder back = seatToRejoin p
          /\ rejoinCount back = rejoinCount p + 1
          /\ ~ In pid (playersEligibleForRejoin (rejoinPlayer pid gs))
          /\ isGameOver after = false
          /\ gameWinnerId after = None
          /\ (NoDup (map id (players (gameState gs))) ->
              currentOpenCardPlayer after = Some back)
        else rejoinPlayer pid gs = gs
    end.
Proof.
  intros gs pid after. subst after. unfold rejoinPlayer.
  destruct (find (fun p => (id p =? pid)%string) (players (gameState gs)))
    as [p|] eqn:Hfind; [|reflexivity].
  destruct (isOut p) eqn:Hout; cbn [negb andb orb]; [|reflexivity].
  destruct (includes pid (playersEligibleForRejoin gs)) eqn:Helig;
    cbn [negb]; [|reflexivity].
  cbv zeta. cbn [gameState playersEligibleForRejoin].
  apply find_some in Hfind. destruct Hfind as [Hin Hid].
  assert (Hback : In (reinstate (seatToRejoin p) p)
    (map (fun q =>
            if (id q =? pid)%string then reinstate (seatToRejoin p) q
            else if negb (isOut q) && (seatToRejoin p <=? columnOrder q)
                 then withColumnOrder (columnOrder q + 1) q else q)
         (players (gameState gs)))).
  { apply in_map_iff. exists p. split; [now rewrite Hid | exact Hin]. }
  split; [exact Hback|]. split; [reflexivity|]. split; [reflexivity|].
  split; [reflexivity|]. split.
  { intros Hx. apply filter_In in Hx. destruct Hx as [_ Hx].
    now rewrite String.eqb_refl in Hx. }
  split; [reflexivity|]. split; [reflexivity|].
  intros Hnd. apply (open_card_goes_to _ pid).
  - cbn [players withPlayers withRounds withOpenCardIndex withGameOver withGameWinnerId].
    rewrite map_map. erewrite map_ext; [exact Hnd|].
    intros q. destruct (id q =? pid)%string; [reflexivity|].
    now destruct (negb (isOut q) && _).
  - exact Hback.
  - reflexivity.
  - now apply String.eqb_eq in Hid.
  - reflexivity.
Qed.

Lemma rejoinPlayer_brings_back_or_does_nothing_witness :
  let after := gameState (rejoinPlayer "b" bobOutOfThree) in
  NoDup (map id (players (gameState bobOutOfThree)))
  /\ option_map id (currentOpenCardPlayer after) = Some "b"
  /\ rejoinPlayer "a" bobOutOfThree = bobOutOfThree
  /\ rejoinPlayer "z" bobOutOfThree = bobOutOfThree.
Proof.
  cbv zeta.
  assert (Hnd : NoDup (map id (players (gameState bobOutOfThree)))).
  { vm_compute. repeat constructor; simpl; intuition discriminate. }
  pose proof (rejoinPlayer_brings_back_or_does_nothing bobOutOfThree "b") as Hb.
  pose proof (rejoinPlayer_brings_back_or_does_nothing bobOutOfThree "a") as Ha.
  pose proof (rejoinPlayer_brings_back_or_does_nothing bobOutOfThree "z") as Hz.
  cbv zeta in Hb, Ha, Hz.
  change (find (fun p => (id p =? "b")%string) (players (gameState bobOutOfThree)))
    with (Some (mkPlayer "b" "Bob" true 1 (Some 1) 0)) in Hb.
  change (find (fun p => (id p =? "a")%string) (players (gameState bobOutOfThree)))
    with (Some (mkPlayer "a" "Alice" false 0 None 0)) in Ha.
  change (find (fun p => (id p =? "z")%string) (players (gameState bobOutOfThree)))
    with (@None Player) in Hz.
  cbv iota in Hb, Ha, Hz.
  change (isOut (mkPlayer "b" "Bob" true 1 (Some 1) 0)
          && includes "b" (playersEligibleForRejoin bobOutOfThree)) with true in Hb.
  change (isOut (mkPlayer "a" "Alice" false 0 None 0)
          && includes "a" (playersEligibleForRejoin bobOutOfThree)) with false in Ha.
  cbv iota in Hb, Ha.
  destruct Hb as (_ & _ & _ & _ & _ & _ & _ & Hb).
  split; [exact Hnd|]. split; [now rewrite (Hb Hnd)|]. split; [exact Ha | exact Hz].
Defined.

(* ===================================================================== *)
(** ** Joining in the middle of a game *)
(* ===================================================================== *)

Lemma totalFor_absent rs q :
  Forall (fun r => find (hasPlayerId q) (scores r) = None) rs -> totalFor rs q = 0%Z.
Proof.
  induction 1 as [|r rs Hr Hrs IH]; simpl; [reflexivity|].
  unfold scoreInRound. now rewrite Hr, IH.
Qed.

Lemma highest_with_joiner st joiner :
  calculatePlayerTotal st (id joiner) = 0%Z ->
  getHighestActiveScore None (withPlayers (players st ++ [joiner]) st)
  = getHighestActiveScore None st.
Proof.
  intros Hzero. unfold getHighestActiveScore.
  cbn [players withPlayers]. rewrite fold_left_app. cbn [fold_left].
  change (calculatePlayerTotal (withPlayers (players st ++ [joiner]) st))
    with (calculatePlayerTotal st).
  fold (getHighestActiveScore None st).
  destruct (negb (isOut joiner) && negb false); [|reflexivity].
  rewrite Hzero.
  pose proof (proj1 (getHighestActiveScore_is_greatest_aux st)) as Hge.
  destruct (Z.gtb_spec 0 (getHighestActiveScore None st)); [lia | reflexivity].
Qed.

(** X19. A newcomer joins in the middle of a game through the player
    panel. When the trimmed name is not empty, is borne by no player and
    by no tombstone, at least one round is recorded, the highest active
    total is positive, and the id handed out is new to the players and to
    the ledger, the panel's [addPlayer] adds the newcomer as the last
    active player, writes the join score into the most recent round
    without creating one, so that the newcomer's total is the highest
    active total plus one, gives the newcomer the open card and empties
    the name field. *)
Theorem panel_adds_midgame_joiner :
  forall (gs : GameService) (panel : PlayerPanel) (fresh : string)
         (earlier : list Round) (lastRound : Round),
    let nm := trim (newPlayerName panel) in
    let st := gameState gs in
    let highest := getHighestActiveScore None st in
    nm <> "" ->
    isPlayerNameTaken nm st = false ->
    findRemovedPlayer nm st = None ->
    rounds st = earlier ++ [lastRound] ->
    (0 < highest)%Z ->
    NoDup (map id (players st)) ->
    ~ In fresh (map id (players st)) ->
    Forall (fun r => find (hasPlayerId fresh) (scores r) = None) (rounds st) ->
    let joiner := mkPlayer fresh nm false (length (filter notOut (players st))) None 0 in
    let result := panelAddPlayer fresh panel gs in
    let after := gameState (snd result) in
    newPlayerName (fst result) = ""
    /\ players after = players st ++ [joiner]
    /\ rounds after
       = earlier
         ++ [withScores (scores lastRound ++ [mkRoundScore fresh (highest + 1)])
                        lastRound]
    /\ calculatePlayerTotal after fresh = (highest + 1)%Z
    /\ currentOpenCardPlayer after = Some joiner.
Proof.
  intros gs panel fresh earlier lastRound nm st highest
         Hne Hfree Htomb Hrounds Hpos Hnd Hfresh Hledger joiner result after.
  assert (Htrim : trim nm = nm) by (subst nm; apply trim_idempotent).
  assert (Hzero : calculatePlayerTotal st fresh = 0%Z).
  { rewrite calculatePlayerTotal_totalFor. now apply totalFor_absent. }
  assert (Hnoname : find (fun p => (name p =? nm)%string && negb (isOut p)) (players st)
                    = None).
  { apply find_none_all. intros p Hp.
    destruct (String.eqb_spec (name p) nm) as [He|]; [|reflexivity].
    exfalso.
    assert (Ht : isPlayerNameTaken nm st = true).
    { apply isPlayerNameTaken_spec. exists p. split; [exact Hp|].
      now rewrite Htrim, He. }
    congruence. }
  assert (Hadd : addPlayer nm fresh gs
                 = (true, withGameState (withPlayers (players st ++ [joiner]) st) gs)).
  { unfold addPlayer. rewrite Htrim. fold st. now rewrite Hfree, Htomb. }
  assert (Hresult : result
    = (mkPlayerPanel "" "",
       withGameState
         (withOpenCardIndex
            (maxZeroIndex
               (findIndex (fun p => (id p =? fresh)%string)
                          (sortByColumnOrder (filter notOut (players st ++ [joiner])))))
            (withRounds
               (earlier
                ++ [withScores (scores lastRound ++ [mkRoundScore fresh (highest + 1)])
                               lastRound])
               (withPlayers (players st ++ [joiner]) st)))
         gs)).
  { subst result. unfold panelAddPlayer. fold nm. fold st.
    destruct (String.eqb_spec nm ""); [contradiction|].
    rewrite Hfree, Hadd.
    cbn [gameState withGameState rounds withPlayers duplicateNameError].
    fold st. rewrite Hrounds, length_app. cbn [length].
    replace (0 <? length earlier + 1) with true by (symmetry; apply Nat.ltb_lt; lia).
    unfold getJoinScore. cbn [gameState withGameState].
    rewrite (highest_with_joiner st joiner Hzero). fold highest.
    replace (highest >? 0)%Z with true by (symmetry; apply Z.gtb_lt; lia).
    replace (highest + 1 >? 0)%Z with true by (symmetry; apply Z.gtb_lt; lia).
    unfold addJoinScoreForNewPlayer.
    cbn [gameState withGameState players rounds withPlayers].
    rewrite find_app, Hnoname. cbn [find name isOut joiner negb andb].
    subst joiner. cbn [name isOut negb andb]. rewrite String.eqb_refl. cbn [andb id].
    rewrite Hrounds.
    replace (length (earlier ++ [lastRound]) =? 0) with false
      by (symmetry; apply Nat.eqb_neq; rewrite length_app; simpl; lia).
    rewrite (mapi_last
               (fun round =>
                  withScores (scores round ++ [mkRoundScore fresh (highest + 1)]) round)).
    reflexivity. }
  subst after. rewrite Hresult. cbn [fst snd newPlayerName gameState withGameState].
  split; [reflexivity|]. split; [reflexivity|]. split; [reflexivity|]. split.
  - rewrite calculatePlayerTotal_totalFor.
    cbn [rounds withOpenCardIndex withRounds]. rewrite totalFor_app.
    rewrite Hrounds in Hledger. apply Forall_app in Hledger.
    destruct Hledger as [He Hl]. inversion Hl as [|? ? Hlast _]; subst.
    rewrite (totalFor_absent _ _ He). cbn [totalFor].
    unfold scoreInRound. cbn [scores withScores]. rewrite find_app, Hlast.
    cbn [find hasPlayerId playerId]. unfold hasPlayerId. cbn [playerId].
    rewrite String.eqb_refl. cbn [scoreOrZero score]. lia.
  - apply (open_card_goes_to _ fresh).
    + cbn [players withOpenCardIndex withRounds withPlayers].
      rewrite map_app. cbn [map id joiner].
      apply (Permutation_NoDup (Permutation_cons_append _ _)).
      constructor; assumption.
    + cbn [players withOpenCardIndex withRounds withPlayers].
      apply in_or_app. right. now left.
    + reflexivity.
    + reflexivity.
    + reflexivity.
Qed.

Lemma panel_adds_midgame_joiner_witness :
  let result := panelAddPlayer "e" panelWithErin oneRoundPlayed in
  let after := gameState (snd result) in
  getHighestActiveScore None (gameState oneRoundPlayed) = 50%Z
  /\ newPlayerName (fst result) = ""
  /\ map name (players after) = ["Alice"; "Bob"; "Erin"]
  /\ length (rounds after) = 1
  /\ calculatePlayerTotal after "e" = (50 + 1)%Z
  /\ option_map name (currentOpenCardPlayer after) = Some "Erin".
Proof.
  cbv zeta.
  assert (Hnd : NoDup (map id (players (gameState oneRoundPlayed)))).
  { vm_compute. repeat constructor; simpl; intuition discriminate. }
  assert (Hfresh : ~ In "e" (map id (players (gameState oneRoundPlayed)))).
  { vm_compute. intuition discriminate. }
  assert (Hledger : Forall (fun r => find (hasPlayerId "e") (scores r) = None)
                           (rounds (gameState oneRoundPlayed))).
  { vm_compute. repeat constructor. }
  assert (Hne : trim (newPlayerName panelWithErin) <> "") by (vm_compute; discriminate).
  assert (Hpos : (0 < getHighestActiveScore None (gameState oneRoundPlayed))%Z)
    by (vm_compute; reflexivity).
  pose proof (panel_adds_midgame_joiner oneRoundPlayed panelWithErin "e" []
                (mkRound 1 [mkRoundScore "a" 0; mkRoundScore "b" 50] (Some "a") 1)
                Hne eq_refl eq_refl eq_refl Hpos Hnd Hfresh Hledger) as H.
  cbv zeta in H. destruct H as (Hfield & Hplayers & Hr & Htotal & Hopen).
  split; [reflexivity|]. split; [exact Hfield|].
  split; [now rewrite Hplayers|]. split; [now rewrite Hr|].
  split; [exact Htotal|]. now rewrite Hopen.
Defined.

(* ===================================================================== *)
(** ** The rejoin offer *)
(* ===================================================================== *)

Lemma rejoinPlayer_ledger gs pid p earlier lastRound entry :
  find (fun q => (id q =? pid)%string) (players (gameState gs)) = Some p ->
  isOut p = true ->
  includes pid (playersEligibleForRejoin gs) = true ->
  rounds (gameState gs) = earlier ++ [lastRound] ->
  find (hasPlayerId pid) (scores lastRound) = Some entry ->
  calculatePlayerTotal (gameState (rejoinPlayer pid gs)) pid
  = (getHighestActiveScore None (gameState gs) + 1)%Z.
Proof.
  intros Hfind Hout Helig Hrounds Hentry.
  rewrite calculatePlayerTotal_totalFor.
  unfold rejoinPlayer. rewrite Hfind, Hout, Helig.
  cbn [negb orb gameState rounds withGameWinnerId withGameOver withOpenCardIndex
       withRounds].
  rewrite Hrounds, nth_error_last, Hentry.
  rewrite (mapi_last
             (fun round =>
                withScores
                  (map (fun s => if (playerId s =? pid)%string
                                 then withScore _ s else s) (scores round))
                  round)).
  rewrite totalFor_app. cbn [totalFor]. unfold scoreInRound. cbn [scores withScores].
  change (map (fun s => if (playerId s =? pid)%string then withScore ?z s else s))
    with (map (adjustEntry pid z)).
  rewrite find_adjustEntry, Hentry.
  rewrite (calculatePlayerTotal_totalFor (gameState gs) pid), Hrounds, totalFor_app.
  cbn [totalFor]. unfold scoreInRound. rewrite Hentry.
  cbn [option_map scoreOrZero withScore score]. lia.
Qed.

Lemma rejoinPlayer_brings_back gs pid p :
  find (fun q => (id q =? pid)%string) (players (gameState gs)) = Some p ->
  isOut p = true ->
  includes pid (playersEligibleForRejoin gs) = true ->
  In (reinstate (seatToRejoin p) p) (players (gameState (rejoinPlayer pid gs)))
  /\ settings (gameState (rejoinPlayer pid gs)) = settings (gameState gs)
  /\ playersEligibleForRejoin (rejoinPlayer pid gs)
     = filter (fun i => negb (i =? pid)%string) (playersEligibleForRejoin gs).
Proof.
  intros Hfind Hout Helig. unfold rejoinPlayer. rewrite Hfind, Hout, Helig.
  cbn [negb orb gameState playersEligibleForRejoin players settings withGameWinnerId
       withGameOver withOpenCardIndex withRounds withPlayers].
  split; [|split; reflexivity].
  apply find_some in Hfind. destruct Hfind as [Hin Hid].
  apply in_map_iff. exists p. split; [|exact Hin].
  rewrite Hid. reflexivity.
Qed.

(** X20. The rejoin offer can be taken up. Player ids being distinct, a
    player that [checkForRejoinEligiblePlayers] offers a rejoin (the flag
    [canRejoin] of [playersWithTotals]) and that has an entry in the most
    recent round is, after [rejoinPlayer], listed by [playersWithTotals] as
    active with the rejoin score as total and with [canDrop] set, and is
    not offered a rejoin again. *)
Theorem rejoin_offer_can_be_taken_up :
  forall (gs : GameService) (offered : PlayerWithTotal)
         (earlier : list Round) (lastRound : Round) (entry : RoundScore),
    let pid := id (base offered) in
    NoDup (map id (players (gameState gs))) ->
    In offered (rejoinCandidates gs) ->
    rounds (gameState gs) = earlier ++ [lastRound] ->
    find (hasPlayerId pid) (scores lastRound) = Some entry ->
    let after := rejoinPlayer pid gs in
    let back :=
      playerWithTotal after (reinstate (seatToRejoin (base offered)) (base offered)) in
    In back (playersWithTotals after)
    /\ isOut (base back) = false
    /\ totalScore back = getRejoinScore gs
    /\ canDrop back = true
    /\ (forall again, In again (rejoinCandidates after) -> id (base again) <> pid).
Proof.
  intros gs offered earlier lastRound entry pid Hnd Hoffered Hrounds Hentry after back.
  unfold rejoinCandidates, playersWithTotals in Hoffered.
  apply filter_In in Hoffered. destruct Hoffered as [Hin Hcan].
  apply in_map_iff in Hin. destruct Hin as (p & Hp & Hin).
  subst offered. cbn [base playerWithTotal] in pid, back.
  cbn [canRejoin playerWithTotal] in Hcan.
  apply andb_prop in Hcan. destruct Hcan as [Hcan _].
  apply andb_prop in Hcan. destruct Hcan as [Hcan Hroom].
  apply andb_prop in Hcan. destruct Hcan as [Hout Helig].
  fold pid in Helig.
  pose proof (find_by_id_unique _ _ Hnd Hin) as Hfind. fold pid in Hfind.
  pose proof (rejoinPlayer_ledger gs pid p earlier lastRound entry
                Hfind Hout Helig Hrounds Hentry) as Htotal.
  fold after in Htotal.
  pose proof (rejoinPlayer_brings_back gs pid p Hfind Hout Helig) as Hback.
  fold after in Hback. destruct Hback as (Hback & Hsettings & Heligible).
  split; [|split; [|split; [|split]]].
  - subst back. unfold playersWithTotals. now apply in_map.
  - reflexivity.
  - subst back. cbn [totalScore playerWithTotal id reinstate]. fold pid.
    rewrite Htotal. reflexivity.
  - subst back. cbn [canDrop playerWithTotal id reinstate]. fold pid.
    rewrite Htotal, Hsettings. exact Hroom.
  - intros again Hagain Hsame.
    unfold rejoinCandidates, playersWithTotals in Hagain.
    apply filter_In in Hagain. destruct Hagain as [Hin' Hcan'].
    apply in_map_iff in Hin'. destruct Hin' as (q & Hq & _). subst again.
    cbn [base playerWithTotal] in Hsame. cbn [canRejoin playerWithTotal] in Hcan'.
    apply andb_prop in Hcan'. destruct Hcan' as [Hcan' _].
    apply andb_prop in Hcan'. destruct Hcan' as [Hcan' _].
    apply andb_prop in Hcan'. destruct Hcan' as [_ Hel].
    apply includes_In in Hel. rewrite Heligible in Hel.
    apply filter_In in Hel. destruct Hel as [_ Hel].
    rewrite Hsame, String.eqb_refl in Hel. discriminate.
Qed.

Lemma rejoin_offer_can_be_taken_up_witness :
  let after := rejoinPlayer "c" carolOut in
  map (fun pt => id (base pt)) (rejoinCandidates carolOut) = ["c"]
  /\ getRejoinScore carolOut = 41%Z
  /\ In (playerWithTotal after (mkPlayer "c" "Carol" false 2 None 1))
        (playersWithTotals after)
  /\ canDrop (playerWithTotal after (mkPlayer "c" "Carol" false 2 None 1)) = true
  /\ rejoinCandidates after = [].
Proof.
  cbv zeta.
  assert (Hnd : NoDup (map id (players (gameState carolOut)))).
  { vm_compute. repeat constructor; simpl; intuition discriminate. }
  assert (Hoffered : In (playerWithTotal carolOut (mkPlayer "c" "Carol" true 2 (Some 2) 0))
                        (rejoinCandidates carolOut)).
  { vm_compute. now left. }
  pose proof (rejoin_offer_can_be_taken_up carolOut
                (playerWithTotal carolOut (mkPlayer "c" "Carol" true 2 (Some 2) 0)) []
                (mkRound 1 [mkRoundScore "a" 0; mkRoundScore "b" 40; mkRoundScore "c" 110]
                         (Some "a") 1)
                (mkRoundScore "c" 110) Hnd Hoffered eq_refl eq_refl) as H.
  cbv zeta in H. destruct H as (Hin & _ & _ & Hdrop & _).
  split; [reflexivity|]. split; [reflexivity|].
  split; [exact Hin|]. split; [exact Hdrop | reflexivity].
Defined.

(* ===================================================================== *)
(** ** The status pass *)
(* ===================================================================== *)

Lemma compactFrom_In_status l : forall n q',
  In q' (compactFrom n l) -> exists q, In q l /\ id q = id q' /\ isOut q = isOut q'.
Proof.
  induction l as [|p l IH]; intros n q'; simpl; [contradiction|].
  destruct (isOut p) eqn:Hout; simpl; intros [<-|Hin].
  - exists p. auto.
  - destruct (IH _ _ Hin) as (q & Hq & Hn). exists q. auto.
  - exists p. auto.
  - destruct (IH _ _ Hin) as (q & Hq & Hn). exists q. auto.
Qed.

(** X21. The status pass settles the statuses. After
    [recalculatePlayerStatuses] every player is out exactly when the total
    exceeds the ceiling, and a second pass changes nothing. *)
Theorem recalculatePlayerStatuses_settles :
  forall (st : GameState),
    let settled := recalculatePlayerStatuses st in
    (forall p, In p (players settled) -> isOut p = shouldBeOut settled p)
    /\ recalculatePlayerStatuses settled = settled.
Proof.
  intros st settled.
  assert (Hsb : forall p, shouldBeOut settled p = shouldBeOut st p).
  { intros p. subst settled. unfold shouldBeOut.
    rewrite (calculatePlayerTotal_rounds _ st) by apply recalculatePlayerStatuses_rounds.
    now rewrite recalculatePlayerStatuses_settings. }
  assert (Hall : forall p, In p (players settled) -> isOut p = shouldBeOut settled p).
  { intros q' Hq'. rewrite Hsb. subst settled. unfold recalculatePlayerStatuses in Hq'.
    destruct (existsb (fun p => negb (Bool.eqb (isOut p) (shouldBeOut st p))) (players st))
      eqn:Hch.
    - rewrite checkGameOver_players in Hq'. cbn [players withPlayers] in Hq'.
      apply compactFrom_In_status in Hq'. destruct Hq' as (q & Hq & Hid & Hout).
      apply in_map_iff in Hq. destruct Hq as (p & Hp & _).
      rewrite <- Hout. unfold shouldBeOut. rewrite <- Hid. subst q.
      destruct (Bool.eqb (isOut p) (shouldBeOut st p)) eqn:He.
      + now apply Bool.eqb_prop in He.
      + reflexivity.
    - destruct (Bool.eqb (isOut q') (shouldBeOut st q')) eqn:He;
        [now apply Bool.eqb_prop in He|].
      assert (Hex : existsb (fun p => negb (Bool.eqb (isOut p) (shouldBeOut st p)))
                            (players st) = true).
      { apply existsb_exists. exists q'. split; [exact Hq'|]. now rewrite He. }
      congruence. }
  split; [exact Hall|].
  unfold recalculatePlayerStatuses at 1.
  replace (existsb (fun p => negb (Bool.eqb (isOut p) (shouldBeOut settled p)))
                   (players settled)) with false; [reflexivity|].
  symmetry. apply not_true_is_false. intros Hex.
  apply existsb_exists in Hex. destruct Hex as (p & Hp & Hne).
  rewrite (Hall p Hp) in Hne.
  now destruct (shouldBeOut settled p).
Qed.
